(** * The module runtime of bbot: [BaseModule] (bbot/modules/base.py)

    A shallow embedding of the per-module event engine: the acceptance
    filter, the incoming queue and its batch collector, the emission gate,
    and the lifecycle operations ([_setup], [_cleanup], [set_error_state]).

    Python objects are mutated in place and may raise; the embedding
    threads the instance state through a state-and-exception monad [M],
    and records every call that leaves the module (logging, the thread
    pools, the catch harness of the scan manager, the statistics
    collector, the event semaphore) in an ordered trace. *)

From Stdlib Require Import ZArith Ascii String List Lia Bool.
From stdpp Require Import base strings gmap list pretty.

Open Scope Z_scope.

(** ** Exceptions *)

(** The classes that base.py distinguishes.  [KeyboardInterrupt] derives
    from [BaseException] only, so [except Exception] lets it through. *)
Inductive ExcClass :=
| KeyboardInterrupt
| ScanCancelledError
| ValidationError
| WordlistError
| OtherException (cls : string).

Record Exc := mkExc {
  exc_class : ExcClass;
  exc_str : string;        (* f"{e}" *)
  exc_traceback : string   (* traceback.format_exc() while e is handled *)
}.

(** [isinstance(e, Exception)] *)
Definition is_Exception (e : Exc) : bool :=
  match exc_class e with KeyboardInterrupt => false | _ => true end.

(** [isinstance(e, WordlistError)] *)
Definition is_WordlistError (e : Exc) : bool :=
  match exc_class e with WordlistError => true | _ => false end.

(** [isinstance(e, ValidationError)] *)
Definition is_ValidationError (e : Exc) : bool :=
  match exc_class e with ValidationError => true | _ => false end.

Inductive Result (A : Type) :=
| Ok (a : A)
| Raise (e : Exc).
Arguments Ok {A} a.
Arguments Raise {A} e.

(** ** Events, queue items, callables *)

(** The attributes of an event that base.py reads.  [module] is the name
    of the producing module ([None] while unset); [event_str] is
    [str(event)]. *)
#[warnings="-register-all"]
Inductive Event := mkEvent {
  type : string;
  source : option Event;
  tags : gset string;
  module : option string;
  scope_distance : Z;
  event_str : string
}.

(** [getattr(event.source, "type", "")]: the empty string when the event
    has no source. *)
Definition source_type (e : Event) : string :=
  match source e with Some src => type src | None => "" end.

(** What travels on the incoming queue: a Python [str] or an event. *)
Inductive Item :=
| Str (s : string)
| Ev (e : Event).

(** [type(event) == str] *)
Definition is_str (x : Item) : bool :=
  match x with Str _ => true | Ev _ => false end.

(** [is_event(event)] of bbot.core.event.base *)
Definition is_event (x : Item) : bool :=
  match x with Str _ => false | Ev _ => true end.

(** [f"{event}"] for a queue item *)
Definition item_str (x : Item) : string :=
  match x with Str s => s | Ev e => event_str e end.

(** The value of [self._event_queue]: [None] before first use, a
    [queue.SimpleQueue], or [False] once disarmed.  Where base.py tests
    the handle ([if self.event_queue:]) the methods below match on it: a
    [SimpleQueue] defines neither [__bool__] nor [__len__], so it is true
    even when empty, and [False] is the only false handle the property
    returns. *)
Inductive QueueHandle :=
| QNone
| QFalse
| Queue (items : list Item).

(** The bound methods of the module and the functions registered as
    cleanup callbacks. *)
Inductive Callable :=
| m_handle_event
| m_handle_batch
| m_finish
| m_report
| m_cleanup
| registered (id : nat).

(** An entry of [cleanup_callbacks]: anything may be appended to the list. *)
Inductive Obj :=
| Fn (f : Callable)
| NotCallable (repr : string).

Definition callable (o : Obj) : bool :=
  match o with Fn _ => true | NotCallable _ => false end.

(** The arguments of one call of [self.catch(fn, *args, **kwargs)]. *)
Record Call := mkCall {
  fn : Callable;
  args : list Event;
  _on_finish_callback : option Callable;
  _force : bool
}.

(** Keyword arguments that [emit_event] forwards to the manager. *)
Record EmitKwargs := mkEmitKwargs {
  on_success_callback : option Callable;
  abort_if : option Callable;      (* None: the default [lambda e: False] *)
  quick : bool
}.

(** ** Calls that leave the module *)

Inductive Level := DEBUG | WARNING | ERROR.

Inductive Effect :=
| Log (lvl : Level) (msg : string)
| SubmitInternal (c : Call)       (* self._internal_thread_pool.submit_task(self.catch, ...) *)
| Catch (c : Call)                (* self.catch(...) on the calling thread *)
| EventConsumed (event : Item)    (* self.scan.stats.event_consumed(event, self) *)
| MakeEvent                       (* self.scan.make_event(...) *)
| AcquireSemaphore (e : Event) (okay : bool)
| ReleaseSemaphore (e : Event)
| ManagerEmit (e : Event) (kw : EmitKwargs).

(** ** Instance state *)

Record State := mkState {
  errored : bool;
  _event_queue : QueueHandle;
  _batch_idle : Z;
  cleanup_callbacks : list Obj;
  _cleanedup : bool;
  _watched_events : option (gset string);
  effects : list Effect
}.

(** [BaseModule.__init__] *)
Definition init : State :=
  {| errored := false; _event_queue := QNone; _batch_idle := 0;
     cleanup_callbacks := []; _cleanedup := false;
     _watched_events := None; effects := [] |}.

Definition set_errored (b : bool) (s : State) : State :=
  {| errored := b; _event_queue := _event_queue s;
     _batch_idle := _batch_idle s; cleanup_callbacks := cleanup_callbacks s;
     _cleanedup := _cleanedup s; _watched_events := _watched_events s;
     effects := effects s |}.

Definition set_event_queue (q : QueueHandle) (s : State) : State :=
  {| errored := errored s; _event_queue := q;
     _batch_idle := _batch_idle s; cleanup_callbacks := cleanup_callbacks s;
     _cleanedup := _cleanedup s; _watched_events := _watched_events s;
     effects := effects s |}.

Definition set_batch_idle (n : Z) (s : State) : State :=
  {| errored := errored s; _event_queue := _event_queue s;
     _batch_idle := n; cleanup_callbacks := cleanup_callbacks s;
     _cleanedup := _cleanedup s; _watched_events := _watched_events s;
     effects := effects s |}.

Definition set_cleanedup (b : bool) (s : State) : State :=
  {| errored := errored s; _event_queue := _event_queue s;
     _batch_idle := _batch_idle s; cleanup_callbacks := cleanup_callbacks s;
     _cleanedup := b; _watched_events := _watched_events s;
     effects := effects s |}.

Definition set_watched_events (w : option (gset string)) (s : State) : State :=
  {| errored := errored s; _event_queue := _event_queue s;
     _batch_idle := _batch_idle s; cleanup_callbacks := cleanup_callbacks s;
     _cleanedup := _cleanedup s; _watched_events := w;
     effects := effects s |}.

Definition add_effect (x : Effect) (s : State) : State :=
  {| errored := errored s; _event_queue := _event_queue s;
     _batch_idle := _batch_idle s; cleanup_callbacks := cleanup_callbacks s;
     _cleanedup := _cleanedup s; _watched_events := _watched_events s;
     effects := effects s ++ [x] |}.

(** ** The monad: instance state plus Python exceptions *)

Definition M (A : Type) : Type := State -> Result A * State.

Definition ret {A} (a : A) : M A := fun s => (Ok a, s).

Definition bind {A B} (m : M A) (k : A -> M B) : M B :=
  fun s => match m s with
           | (Ok a, s') => k a s'
           | (Raise e, s') => (Raise e, s')
           end.

#[global] Instance M_ret : MRet M := @ret.
#[global] Instance M_bind : MBind M := fun A B k m => bind m k.

Definition raise {A} (e : Exc) : M A := fun s => (Raise e, s).

(** A call into code outside the module, with its outcome. *)
Definition call {A} (r : Result A) : M A := fun s => (r, s).

(** [try: m  except <class> as e: h e], the class given by [catches]. *)
Definition try_except {A} (catches : Exc -> bool) (m : M A) (h : Exc -> M A) : M A :=
  fun s => match m s with
           | (Raise e, s') => if catches e then h e s' else (Raise e, s')
           | r => r
           end.

Definition get : M State := fun s => (Ok s, s).
Definition modify (f : State -> State) : M unit := fun s => (Ok tt, f s).
Definition effect (x : Effect) : M unit := modify (add_effect x).

Definition debug (msg : string) : M unit := effect (Log DEBUG msg).
Definition warning (msg : string) : M unit := effect (Log WARNING msg).
Definition error (msg : string) : M unit := effect (Log ERROR msg).

(** ** Formatting helpers for f-strings *)

Definition dquote : string := String "034"%char EmptyString.

(** Groups of three digits from the right, for the [:,] format. *)
Fixpoint group3 (rev_digits : list ascii) (run : nat) : list ascii :=
  match rev_digits with
  | [] => []
  | d :: ds =>
      match run with
      | 3%nat => "," %char :: d :: group3 ds 1
      | _ => d :: group3 ds (S run)
      end
  end.

(** [f"{n:,}"] for a length *)
Definition pretty_commas (n : nat) : string :=
  string_of_list_ascii
    (rev (group3 (rev (list_ascii_of_string (pretty n))) 0)).

(** [str(x)] for an optional integer or name ([None] prints as "None") *)
Definition str_opt_Z (o : option Z) : string :=
  match o with Some z => pretty z | None => "None" end.

Definition str_opt (o : option string) : string :=
  match o with Some s => s | None => "None" end.

(** ** Class attributes and overridable methods *)

(** What [setup()] may return: a status, or a (status, message) pair.
    The status is [True], [False] or [None]. *)
Inductive SetupReturn :=
| Plain (status : option bool)
| Pair (status : option bool) (msg : string).

(** A subclass of [BaseModule]: the class attributes the runtime reads
    and the user methods it calls.  A user method either returns or
    raises. *)
Class ModuleClass := {
  watched_events : list string;
  target_only : bool;
  in_scope_only : bool;
  scope_distance_modifier : option Z;
  batch_size : Z;
  _name : string;
  _type : string;
  setup : Result SetupReturn;
  filter_event : Event -> Result bool
}.

(** The defaults of [BaseModule] itself. *)
Definition BaseModule : ModuleClass :=
  {| watched_events := []; target_only := false; in_scope_only := false;
     scope_distance_modifier := Some (-1); batch_size := 1;
     _name := "base"; _type := "scan";
     setup := Ok (Plain (Some true));
     filter_event := fun _ => Ok true |}.

(** The part of the scan object that the filter reads. *)
Record Scan := mkScan {
  scope_search_distance : Z
}.

(** ** What [emit_event] observes of the scan

    [emit_event] polls [scan.stopping] and the event semaphore in a loop
    that other threads end; their answers are given as a script. *)

(** One pass of the [while not self.scan.stopping] loop: the scan is
    stopping, or it is not and [acquire_semaphore(timeout=0.1)] answers. *)
Inductive Poll :=
| Stopping
| Waiting (okay : bool).

Record World := mkWorld {
  stopping : bool;          (* scan.stopping on entry *)
  made : Result Event;      (* outcome of scan.make_event(...) *)
  polls : list Poll;        (* the passes of the loop, in order *)
  emitted : Result unit     (* outcome of scan.manager.emit_event(...) *)
}.

(** ** The methods of [BaseModule] *)

Section Methods.
Context {cls : ModuleClass} (scan : Scan).

(** [name]: [str(self._name)] *)
Definition name : string := _name.

(** The [event_queue] property creates the queue on first access. *)
Definition event_queue : M QueueHandle :=
  s ← get;
  match _event_queue s with
  | QNone => modify (set_event_queue (Queue []));; mret (Queue [])
  | q => mret q
  end.

Definition get_watched_events : M (gset string) :=
  s ← get;
  match _watched_events s with
  | None =>
      let w : gset string := list_to_set watched_events in
      modify (set_watched_events (Some w));; mret w
  | Some w => mret w
  end.

Definition catch (c : Call) : M unit := effect (Catch c).

Definition submit_internal (c : Call) : M unit := effect (SubmitInternal c).

(** The loop of [events_waiting] once the handle is a queue: [get_nowait]
    until [left] reaches 0 or [queue.Empty] is raised.  The result is
    the triple built so far and what stays on the queue. *)
Fixpoint drain (left : Z) (q : list Item) (events : list Event)
    (finish report : bool) : (list Event * bool * bool) * list Item :=
  if left >? 0 then
    match q with
    | [] => ((events, finish, report), [])
    | Str s :: q' =>
        if bool_decide (s = "FINISHED") then drain left q' events true report
        else if bool_decide (s = "REPORT") then drain left q' events finish true
        else drain left q' events finish report
    | Ev e :: q' => drain (left - 1) q' (events ++ [e]) finish report
    end
  else ((events, finish, report), q).

Definition events_waiting : M (list Event * bool * bool) :=
  let left := batch_size in
  if left >? 0 then
    q ← event_queue;
    match q with
    | Queue items =>
        let '(r, rest) := drain left items [] false false in
        modify (set_event_queue (Queue rest));; mret r
    | _ => mret ([], false, false)
    end
  else mret ([], false, false).

Definition num_queued_events : M Z :=
  q ← event_queue;
  match q with
  | Queue items => mret (Z.of_nat (length items))
  | _ => mret 0
  end.

Definition _handle_batch (force : bool) : M bool :=
  n ← num_queued_events;
  go ← (if n >? 0 then
          if force then mret true
          else n' ← num_queued_events; mret (n' >=? batch_size)
        else mret false);
  if go : bool then
    modify (set_batch_idle 0);;
    '(events, finish, report) ← events_waiting;
    let on_finish_callback :=
      if finish : bool then Some m_finish
      else if report : bool then Some m_report
      else None in
    match events with
    | _ :: _ =>
        debug ("Handling batch of " +:+ pretty_commas (length events) +:+ " events");;
        submit_internal
          {| fn := m_handle_batch; args := events;
             _on_finish_callback := on_finish_callback; _force := false |};;
        mret true
    | [] => mret false
    end
  else mret false.

(** One pass of the single-event branch of [_worker] ([batch_size] not
    above 1); [get(timeout=0.1)] on an empty queue raises [queue.Empty]
    and the loop continues.  The result tells whether the loop goes on. *)
Definition _worker_single : M bool :=
  q ← event_queue;
  match q with
  | Queue [] => mret true
  | Queue (e :: rest) =>
      modify (set_event_queue (Queue rest));;
      debug ("Got " +:+ item_str e +:+ " from " +:+
             match e with Str s => s | Ev ev => str_opt (module ev) end);;
      match e with
      | Str s =>
          (if bool_decide (s = "FINISHED") then
             submit_internal {| fn := m_finish; args := []; _on_finish_callback := None; _force := false |}
           else if bool_decide (s = "REPORT") then
             submit_internal {| fn := m_report; args := []; _on_finish_callback := None; _force := false |}
           else mret tt);;
          mret true
      | Ev ev =>
          (if bool_decide (_type = "output") then
             catch {| fn := m_handle_event; args := [ev]; _on_finish_callback := None; _force := false |}
           else
             submit_internal {| fn := m_handle_event; args := [ev]; _on_finish_callback := None; _force := false |});;
          mret true
      end
  | _ => debug "Event queue is in bad state";; mret false
  end.

(** [max_scope_distance]; adding [None] to an integer raises TypeError. *)
Definition max_scope_distance : M Z :=
  if in_scope_only || target_only then mret 0
  else match scope_distance_modifier with
       | Some k => mret (Z.max 0 (scope_search_distance scan + k))
       | None =>
           raise {| exc_class := OtherException "TypeError";
                    exc_str := "unsupported operand type(s) for +: 'int' and 'NoneType'";
                    exc_traceback := "" |}
       end.

(** [any(t in self.get_watched_events() for t in ts)] *)
Fixpoint any_watched (ts : list string) : M bool :=
  match ts with
  | [] => mret false
  | t :: ts' =>
      w ← get_watched_events;
      if bool_decide (t ∈ w) then mret true else any_watched ts'
  end.

Definition _event_precheck (event : Item) : M (bool * string) :=
  match event with
  | Str s =>
      if bool_decide (s ∈ ["FINISHED"; "REPORT"]) then mret (true, "")
      else mret (false, "string value " +:+ dquote +:+ s +:+ dquote +:+ " is invalid")
  | Ev e =>
      watched ← any_watched ["*"; type e];
      if negb watched then mret (false, "its type is not in watched_events")
      else if target_only && negb (bool_decide ("target" ∈ tags e)) then
        mret (false, "it did not meet target_only filter criteria")
      else
        let source_is_range := bool_decide (source_type e = "IP_RANGE") in
        if source_is_range
           && bool_decide (type e = "IP_ADDRESS")
           && bool_decide (str_opt (module e) = "speculate")
           && negb (bool_decide (name = "speculate"))
           && forallb (fun x => bool_decide (x ∈ watched_events))
                      ["IP_RANGE"; "IP_ADDRESS"]
        then mret (false, "module consumes IP ranges directly")
        else mret (true, "")
  end.

Definition _event_postcheck (event : Item) : M (bool * string) :=
  match event with
  | Str _ => mret (true, "")
  | Ev e =>
      if in_scope_only && (scope_distance e >? 0) then
        mret (false, "it did not meet in_scope_only filter criteria")
      else
        scope ←
          match scope_distance_modifier with
          | Some _ =>
              if scope_distance e <? 0 then
                mret (Some (false, "its scope_distance (" +:+ pretty (scope_distance e)
                                   +:+ ") is invalid."))
              else
                cap ← max_scope_distance;
                if scope_distance e >? cap then
                  cap' ← max_scope_distance;
                  mret (Some (false,
                    "its scope_distance (" +:+ pretty (scope_distance e)
                    +:+ ") exceeds the maximum allowed by the scan ("
                    +:+ pretty (scope_search_distance scan)
                    +:+ ") + the module (" +:+ str_opt_Z scope_distance_modifier
                    +:+ ") == " +:+ pretty cap'))
                else mret None
          | None => mret None
          end;
        match scope with
        | Some rejected => mret rejected
        | None =>
            (* custom filtering *)
            custom ←
              try_except is_Exception
                (keep ← call (filter_event e);
                 if negb keep then
                   mret (Some (false, event_str e +:+ " did not meet custom filter criteria"))
                 else mret None)
                (fun exc =>
                   error ("Error in filter_event(" +:+ event_str e +:+ "): " +:+ exc_str exc);;
                   debug (exc_traceback exc);;
                   mret None);
            match custom with
            | Some rejected => mret rejected
            | None => mret (true, "")
            end
        end
  end.

Definition _filter_event (event : Item) (precheck_only : bool) : M (bool * string) :=
  '(acceptable, reason) ← _event_precheck event;
  if acceptable && negb precheck_only then _event_postcheck event
  else mret (acceptable, reason).

(** [for callback in callbacks: if callable(callback): self.catch(callback, _force=True)] *)
Fixpoint run_callbacks (callbacks : list Obj) : M unit :=
  match callbacks with
  | [] => mret tt
  | Fn f :: rest =>
      catch {| fn := f; args := []; _on_finish_callback := None; _force := true |};;
      run_callbacks rest
  | NotCallable _ :: rest => run_callbacks rest
  end.

Definition _cleanup : M unit :=
  s ← get;
  if negb (_cleanedup s) then
    modify (set_cleanedup true);;
    s' ← get;
    run_callbacks ([Fn m_cleanup] ++ cleanup_callbacks s')
  else mret tt.

(** [self.event_queue.put(event)]; the disarmed handle [False] has no
    [put]. *)
Definition put (event : Item) : M unit :=
  q ← event_queue;
  match q with
  | Queue items => modify (set_event_queue (Queue (items ++ [event])))
  | _ =>
      raise {| exc_class := OtherException "AttributeError";
               exc_str := "'bool' object has no attribute 'put'";
               exc_traceback := "" |}
  end.

Definition queue_event (event : Item) : M unit :=
  q ← event_queue;
  s ← get;
  if negb (match q with QNone => true | _ => false end) && negb (errored s) then
    '(acceptable, reason) ← _filter_event event false;
    if negb acceptable && negb (bool_decide (reason = "")) then
      debug ("Not accepting " +:+ item_str event +:+ " because " +:+ reason)
    else
      (if is_event event then effect (EventConsumed event) else mret tt);;
      put event
  else debug "Not in an acceptable state to queue event".

(** [while 1: self.event_queue.get_nowait()] under
    [suppress(queue.Empty)]: what is left on the queue afterwards. *)
Fixpoint get_all (items : list Item) : list Item :=
  match items with
  | [] => []
  | _ :: rest => get_all rest
  end.

Definition set_error_state (message : option string) : M unit :=
  match message with
  | Some msg => error msg
  | None => mret tt
  end;;
  s ← get;
  if negb (errored s) then
    debug ("Setting error state for module " +:+ name);;
    modify (set_errored true);;
    q ← event_queue;
    match q with
    | Queue items =>
        debug "Emptying event_queue";;
        modify (set_event_queue (Queue (get_all items)));;
        modify (set_event_queue QFalse)
    | _ => mret tt
    end
  else mret tt.

Definition status_codes (status : option bool) : string :=
  match status with
  | Some false => "hard-fail"
  | None => "soft-fail"
  | Some true => "success"
  end.

Definition _setup : M (option bool * string) :=
  let status : option bool := Some false in
  debug ("Setting up module " +:+ name);;
  try_except is_Exception
    (result ← call setup;
     let '(status, msg) :=
       match result with
       | Pair status msg => (status, msg)
       | Plain status => (status, status_codes status)
       end in
     debug ("Finished setting up module " +:+ name);;
     mret (status, msg))
    (fun e =>
       set_error_state None;;
       let status := if is_WordlistError e then None else status in
       let msg := exc_str e in
       debug (exc_traceback e);;
       mret (status, msg)).

Definition set_module (m : option string) (e : Event) : Event :=
  {| type := type e; source := source e; tags := tags e; module := m;
     scope_distance := scope_distance e; event_str := event_str e |}.

Definition make_event (raise_error : bool) (made : Result Event) : M (option Event) :=
  r ← try_except is_ValidationError
        (effect MakeEvent;; event ← call made; mret (Some event))
        (fun e =>
           if raise_error then raise e
           else warning (exc_str e);; mret None);
  match r with
  | Some event =>
      match module event with
      | None => mret (Some (set_module (Some name) event))
      | Some _ => mret (Some event)
      end
  | None => mret None
  end.

(** The [while] loop of [emit_event].  [None] means the script of polls
    ended with the loop still waiting for a permit. *)
Fixpoint emit_loop (event : Event) (kw : EmitKwargs) (emitted : Result unit)
    (polls : list Poll) : M (option unit) :=
  match polls with
  | [] => mret None
  | Stopping :: _ => mret (Some tt)
  | Waiting okay :: rest =>
      effect (AcquireSemaphore event okay);;
      if negb okay then emit_loop event kw emitted rest
      else
        try_except is_Exception
          (effect (ManagerEmit event kw);; call emitted)
          (fun e =>
             effect (ReleaseSemaphore event);;
             error ("Unexpected error in " +:+ name +:+ ".emit_event()");;
             debug (exc_traceback e));;
        mret (Some tt)
  end.

Definition emit_event (w : World) (kw : EmitKwargs) (raise_error : bool)
    : M (option unit) :=
  if stopping w then mret (Some tt)
  else
    event ← make_event raise_error (made w);
    match event with
    | Some e => emit_loop e kw (emitted w) (polls w)
    | None => mret (Some tt)
    end.
End Methods.

(** ** The remaining class attributes and what the module reads of its
    surroundings *)

Class ModuleLimits := {
  batch_wait : Z;
  _priority : Z;
  _qsize : Z;
  max_threads : Z
}.

(** The defaults of [BaseModule] itself. *)
Definition BaseLimits : ModuleLimits :=
  {| batch_wait := 10; _priority := 3; _qsize := 100; max_threads := 10 |}.

(** The counters that [status] reads outside the instance state:
    [num_tasks] of the two thread-pool wrappers and [_value] of the event
    semaphore. *)
Record Counters := mkCounters {
  main_pool : Z;
  internal_pool : Z;
  semaphore_value : Z
}.

(** The dict that [status] builds; [tasks] keeps the order in which the
    keys are written. *)
Record Status := mkStatus {
  incoming : Z;
  outgoing : Z;
  tasks : list (string * Z);
  status_errored : bool;
  status_running : bool
}.

(** What [_force_batch] reads of the scan: its status and, for every
    module of [scan.modules], the batch size and the [running] property. *)
Record ScanView := mkScanView {
  scan_status : string;
  scan_modules : list (Z * bool)
}.

(** The option dict of one module, and [scan.config]: under a key such as
    "modules", an entry per module name that is an option dict or [None]. *)
Abbreviation Options := (gmap string Z).
Abbreviation ScanConfig := (gmap string (gmap string (option (gmap string Z)))).

Section MoreMethods.
Context {cls : ModuleClass} {lim : ModuleLimits}.

(** [priority]: [int(max(1, min(5, self._priority)))] *)
Definition priority : Z := Z.max 1 (Z.min 5 _priority).

(** [_is_running(module_status)], which reads [module_status["tasks"]]. *)
Fixpoint _is_running (module_status_tasks : list (string * Z)) : bool :=
  match module_status_tasks with
  | [] => false
  | (pool, count) :: rest =>
      if count >? 0 then true else _is_running rest
  end.

Definition status (c : Counters) : M Status :=
  let pool_total := main_pool c + internal_pool c in
  q ← event_queue;
  incoming_qsize ←
    match q with
    | Queue _ =>
        q' ← event_queue;
        mret (Z.of_nat (length (match q' with Queue items => items | _ => [] end)))
    | _ => mret 0
    end;
  let outgoing_qsize := _qsize - semaphore_value c in
  s ← get;
  let module_status_tasks :=
    [("main_pool", main_pool c); ("internal_pool", internal_pool c);
     ("total", pool_total)] in
  mret {| incoming := incoming_qsize; outgoing := outgoing_qsize;
          tasks := module_status_tasks;
          status_errored := errored s;
          status_running := _is_running module_status_tasks |}.

(** [running]: [self._is_running(self.status)] *)
Definition running (c : Counters) : M bool :=
  st ← status c;
  mret (_is_running (tasks st)).

Definition _force_batch (v : ScanView) : M bool :=
  s ← get;
  (* if we've been idle long enough *)
  if _batch_idle s >=? batch_wait then mret true
  (* if scan is finishing *)
  else if bool_decide (scan_status v = "FINISHING") then mret true
  else
    (* if there's a batch stalemate *)
    let batch_modules := List.filter (fun m => m.1 >? 1) (scan_modules v) in
    if forallb (fun m => negb m.2) batch_modules then mret true
    else mret false.

(** One pass of the batch branch of [_worker] ([batch_size] above 1),
    [iterations] being the counter after its increment.  The result is
    [submitted]; when it is false the loop sleeps for 0.1 s before the
    next pass. *)
Definition _worker_batch (iterations : Z) (v : ScanView) : M bool :=
  (if iterations mod 10 =? 0 then
     s ← get; modify (set_batch_idle (_batch_idle s + 1))
   else mret tt);;
  force ← _force_batch v;
  (if force : bool then modify (set_batch_idle 0) else mret tt);;
  submitted ← _handle_batch force;
  mret submitted.

(** [config]: [self.scan.config.get("modules", {}).get(self.name, {})],
    with [None] replaced by the empty dict. *)
Definition config (scan_config : ScanConfig) : Options :=
  match default ∅ (scan_config !! "modules") !! name with
  | Some (Some options) => options
  | Some None => ∅
  | None => ∅
  end.

(** [self.config.get("max_threads", self.max_threads)], the [max_workers]
    that [__init__] gives to the wrapper of the shared pool. *)
Definition max_workers (scan_config : ScanConfig) : Z :=
  default max_threads (config scan_config !! "max_threads").
End MoreMethods.

(** * Specification vocabulary *)

(** The state [s] after the calls [l] have been recorded. *)
Definition add_effects (l : list Effect) (s : State) : State :=
  {| errored := errored s; _event_queue := _event_queue s;
     _batch_idle := _batch_idle s; cleanup_callbacks := cleanup_callbacks s;
     _cleanedup := _cleanedup s; _watched_events := _watched_events s;
     effects := effects s ++ l |}.

(** What is waiting on the queue; nothing when there is no queue. *)
Definition queue_items (q : QueueHandle) : list Item :=
  match q with Queue items => items | _ => [] end.

(** The events among queue items, in order. *)
Definition events_of (items : list Item) : list Event :=
  omap (fun x => match x with Ev e => Some e | Str _ => None end) items.

(** Whether the string [tok] occurs among queue items. *)
Definition has_token (tok : string) (items : list Item) : bool :=
  existsb (fun x => match x with Str s => bool_decide (s = tok) | Ev _ => false end) items.

(** [self.catch(f, _force=True)] *)
Definition cleanup_call (f : Callable) : Effect :=
  Catch {| fn := f; args := []; _on_finish_callback := None; _force := true |}.

(** The entries of a list that pass [callable(...)], in order. *)
Fixpoint callables (l : list Obj) : list Callable :=
  match l with
  | [] => []
  | Fn f :: rest => f :: callables rest
  | NotCallable _ :: rest => callables rest
  end.

(** The calls of [self.catch] that one run of [_cleanup] makes: the user
    [cleanup] first, then the callable entries of [cleanup_callbacks]. *)
Definition cleanup_calls (s : State) : list Effect :=
  map cleanup_call (m_cleanup :: callables (cleanup_callbacks s)).

(** The runtime never sets [errored] without disarming the queue. *)
Definition state_ok (s : State) : Prop :=
  errored s = true -> _event_queue s = QFalse.

(** The entry points that the orchestrator and the worker thread use. *)
Inductive Op :=
| OpQueueEvent (event : Item)
| OpSetErrorState (message : option string)
| OpCleanup
| OpHandleBatch (force : bool)
| OpWorkerSingle
| OpSetup.

(** The state left by running one entry point, whether it returned or raised. *)
Definition run_op {cls : ModuleClass} (scan : Scan) (o : Op) (s : State) : State :=
  match o with
  | OpQueueEvent event => (queue_event scan event s).2
  | OpSetErrorState message => (set_error_state message s).2
  | OpCleanup => (_cleanup s).2
  | OpHandleBatch force => (_handle_batch force s).2
  | OpWorkerSingle => (_worker_single s).2
  | OpSetup => (_setup s).2
  end.

Definition run_ops {cls : ModuleClass} (scan : Scan) (ops : list Op) (s : State) : State :=
  fold_left (fun s o => run_op scan o s) ops s.

(** The set that [get_watched_events()] answers with in state [s]. *)
Definition watched_set {cls : ModuleClass} (s : State) : gset string :=
  match _watched_events s with
  | Some w => w
  | None => list_to_set watched_events
  end.

(** The cache of [get_watched_events] is unset or holds
    [set(self.watched_events)]. *)
Definition watched_coherent {cls : ModuleClass} (s : State) : Prop :=
  _watched_events s = None \/
  _watched_events s = Some (list_to_set watched_events).

(** What the custom-filter step of the post-check does in state [s]:
    the outcome of [filter_event(event)] decides, and an [Exception] is
    logged and then ignored. *)
Definition custom_step {cls : ModuleClass} (e : Event) (s : State)
    : Result (bool * string) * State :=
  match filter_event e with
  | Ok true => (Ok (true, ""), s)
  | Ok false => (Ok (false, event_str e +:+ " did not meet custom filter criteria"), s)
  | Raise exc =>
      if is_Exception exc then
        (Ok (true, ""),
         add_effects [Log ERROR ("Error in filter_event(" +:+ event_str e +:+ "): "
                                 +:+ exc_str exc);
                      Log DEBUG (exc_traceback exc)] s)
      else (Raise exc, s)
  end.

(** The value of [max_scope_distance] for the modifier [k]. *)
Definition scope_cap {cls : ModuleClass} (scan : Scan) (k : Z) : Z :=
  if in_scope_only || target_only then 0
  else Z.max 0 (scope_search_distance scan + k).

(** The scope checks of the post-check let the event through to the
    custom predicate. *)
Definition passes_scope_checks {cls : ModuleClass} (scan : Scan) (e : Event) : Prop :=
  (in_scope_only = true -> scope_distance e <= 0) /\
  (forall k, scope_distance_modifier = Some k ->
             0 <= scope_distance e <= scope_cap scan k).

(** The event as [make_event] hands it out: an event without a producer
    is claimed by this module. *)
Definition claimed {cls : ModuleClass} (e : Event) : Event :=
  match module e with
  | None => set_module (Some name) e
  | Some _ => e
  end.

(** Permits of the event semaphore taken and not given back along a trace. *)
Fixpoint permits_held (t : list Effect) : Z :=
  match t with
  | [] => 0
  | AcquireSemaphore _ true :: t' => permits_held t' + 1
  | ReleaseSemaphore _ :: t' => permits_held t' - 1
  | _ :: t' => permits_held t'
  end.

(** [m] keeps the property [P] of the instance state, whether it returns
    or raises. *)
Definition preserves {A} (P : State -> Prop) (m : M A) : Prop :=
  forall s, P s -> P (m s).2.

(** Hints for the lemmas on what the methods leave alone. *)
Create HintDb frame.

(** The custom predicate lets the event through: it returns true, or it
    raises an [Exception], which the post-check logs and ignores. *)
Definition custom_accepts {cls : ModuleClass} (e : Event) : Prop :=
  filter_event e = Ok true \/
  exists exc, filter_event e = Raise exc /\ is_Exception exc = true.

(** The state after a read of the [event_queue] property: a missing
    queue has been created. *)
Definition with_event_queue (s : State) : State :=
  match _event_queue s with
  | QNone => set_event_queue (Queue []) s
  | _ => s
  end.

(** The callback that [_handle_batch] attaches to a batch, from the
    strings that the drain consumed. *)
Definition batch_callback (consumed : list Item) : option Callable :=
  if has_token "FINISHED" consumed then Some m_finish
  else if has_token "REPORT" consumed then Some m_report
  else None.

(** What [_handle_batch] records when it submits [batch]. *)
Definition batch_submission (batch : list Event) (cb : option Callable) : list Effect :=
  [Log DEBUG ("Handling batch of " +:+ pretty_commas (length batch) +:+ " events");
   SubmitInternal {| fn := m_handle_batch; args := batch;
                     _on_finish_callback := cb; _force := false |}].

(** What one pass of the single-event branch of the worker records for
    the item it takes off the queue. *)
Definition dispatched {cls : ModuleClass} (x : Item) : list Effect :=
  Log DEBUG ("Got " +:+ item_str x +:+ " from " +:+
             match x with Str s => s | Ev ev => str_opt (module ev) end)
  :: match x with
     | Str s =>
         if bool_decide (s = "FINISHED") then
           [SubmitInternal {| fn := m_finish; args := [];
                              _on_finish_callback := None; _force := false |}]
         else if bool_decide (s = "REPORT") then
           [SubmitInternal {| fn := m_report; args := [];
                              _on_finish_callback := None; _force := false |}]
         else []
     | Ev ev =>
         if bool_decide (_type = "output") then
           [Catch {| fn := m_handle_event; args := [ev];
                     _on_finish_callback := None; _force := false |}]
         else
           [SubmitInternal {| fn := m_handle_event; args := [ev];
                              _on_finish_callback := None; _force := false |}]
     end.

(** The scan is not finishing and one of its batching modules is running:
    only the idle counter can force a batch. *)
Definition busy (v : ScanView) : Prop :=
  scan_status v <> "FINISHING" /\
  exists m, m ∈ scan_modules v /\ 1 < m.1 /\ m.2 = true.

(** The scan is finishing, or none of its batching modules is running. *)
Definition flushing (v : ScanView) : Prop :=
  scan_status v = "FINISHING" \/
  forall m, m ∈ scan_modules v -> 1 < m.1 -> m.2 = false.

(** The state after consecutive passes of the batch branch of the worker,
    one per view of the scan; [iterations] is the counter before the
    first of them. *)
Fixpoint worker_batch_passes {cls : ModuleClass} {lim : ModuleLimits}
    (iterations : Z) (views : list ScanView) (s : State) : State :=
  match views with
  | [] => s
  | v :: rest =>
      worker_batch_passes (iterations + 1) rest
        (_worker_batch (iterations + 1) v s).2
  end.

(** The calls of the manager's [emit_event] along a trace. *)
Definition manager_calls (t : list Effect) : nat :=
  length (List.filter (fun x => match x with ManagerEmit _ _ => true | _ => false end) t).

(** The outcome of a call is an exception that [except Exception]
    catches. *)
Definition caught {A} (r : Result A) : bool :=
  match r with
  | Raise x => is_Exception x
  | Ok _ => false
  end.

(** * Example modules, events and states *)

(** A batching module that watches DNS names. *)
Definition batch2 : ModuleClass :=
  {| watched_events := ["DNS_NAME"]; target_only := false; in_scope_only := false;
     scope_distance_modifier := Some (-1); batch_size := 2;
     _name := "batch2"; _type := "scan";
     setup := Ok (Plain (Some true));
     filter_event := fun _ => Ok true |}.

Definition dns0 : Event :=
  {| type := "DNS_NAME"; source := None; tags := ∅; module := None;
     scope_distance := 0; event_str := "DNS_NAME(example.com)" |}.

Definition with_queue (items : list Item) : State :=
  set_event_queue (Queue items) init.

Definition mixed_queue : State :=
  with_queue [Ev dns0; Str "REPORT"; Str "FINISHED"; Ev dns0; Ev dns0].

(** A module whose cleanup list holds two functions and a stray value. *)
Definition with_callbacks : State :=
  {| errored := false; _event_queue := QNone; _batch_idle := 0;
     cleanup_callbacks := [Fn (registered 0); NotCallable "None"; Fn (registered 1)];
     _cleanedup := false; _watched_events := None; effects := [] |}.


Definition scan1 : Scan := {| scope_search_distance := 1 |}.

(** A module that accepts events up to the search distance of the scan. *)
Definition scope0 : ModuleClass :=
  {| watched_events := ["DNS_NAME"]; target_only := false; in_scope_only := false;
     scope_distance_modifier := Some 0; batch_size := 1;
     _name := "scope0"; _type := "scan";
     setup := Ok (Plain (Some true));
     filter_event := fun _ => Ok true |}.

Definition dns1 : Event :=
  {| type := "DNS_NAME"; source := None; tags := ∅; module := None;
     scope_distance := 1; event_str := "DNS_NAME(www.example.com)" |}.

Definition url0 : Event :=
  {| type := "URL"; source := None; tags := ∅; module := None;
     scope_distance := 0; event_str := "URL(http://example.com/)" |}.

(** A port scanner that takes both ranges and single addresses. *)
Definition ranges : ModuleClass :=
  {| watched_events := ["IP_RANGE"; "IP_ADDRESS"]; target_only := false;
     in_scope_only := false;
     scope_distance_modifier := Some (-1); batch_size := 1;
     _name := "portscan"; _type := "scan";
     setup := Ok (Plain (Some true));
     filter_event := fun _ => Ok true |}.

(** The same, restricted to the targets of the scan. *)
Definition target_ranges : ModuleClass :=
  {| watched_events := ["IP_RANGE"; "IP_ADDRESS"]; target_only := true;
     in_scope_only := false;
     scope_distance_modifier := Some (-1); batch_size := 1;
     _name := "portscan"; _type := "scan";
     setup := Ok (Plain (Some true));
     filter_event := fun _ => Ok true |}.

Definition range0 : Event :=
  {| type := "IP_RANGE"; source := None; tags := {["target"]}; module := None;
     scope_distance := 0; event_str := "IP_RANGE(192.168.0.0/30)" |}.

(** An address that the speculate module derived from [range0]. *)
Definition speculated_ip : Event :=
  {| type := "IP_ADDRESS"; source := Some range0; tags := ∅;
     module := Some "speculate";
     scope_distance := 0; event_str := "IP_ADDRESS(192.168.0.1)" |}.

Definition value_error : Exc :=
  {| exc_class := OtherException "ValueError";
     exc_str := "bad event";
     exc_traceback := "Traceback (most recent call last): ..." |}.

(** A module whose custom predicate raises on URLs and refuses the rest. *)
Definition picky : ModuleClass :=
  {| watched_events := ["*"]; target_only := false; in_scope_only := false;
     scope_distance_modifier := Some (-1); batch_size := 1;
     _name := "picky"; _type := "scan";
     setup := Ok (Plain (Some true));
     filter_event := fun e =>
       if bool_decide (type e = "URL") then Raise value_error else Ok false |}.

(** The scan goes on, two polls are refused, the third gets a permit, and
    the manager fails. *)
Definition busy_world : World :=
  {| stopping := false; made := Ok dns0;
     polls := [Waiting false; Waiting false; Waiting true];
     emitted := Raise value_error |}.

Definition no_kwargs : EmitKwargs :=
  {| on_success_callback := None; abort_if := None; quick := false |}.

(** A module that only takes events at scope distance 0. *)
Definition in_scope : ModuleClass :=
  {| watched_events := ["DNS_NAME"]; target_only := false; in_scope_only := true;
     scope_distance_modifier := Some (-1); batch_size := 1;
     _name := "in_scope"; _type := "scan";
     setup := Ok (Plain (Some true));
     filter_event := fun _ => Ok true |}.

(** A module that takes events at any scope distance. *)
Definition any_distance : ModuleClass :=
  {| watched_events := ["DNS_NAME"]; target_only := false; in_scope_only := false;
     scope_distance_modifier := None; batch_size := 1;
     _name := "any_distance"; _type := "scan";
     setup := Ok (Plain (Some true));
     filter_event := fun _ => Ok true |}.

Definition dns7 : Event :=
  {| type := "DNS_NAME"; source := None; tags := ∅; module := None;
     scope_distance := 7; event_str := "DNS_NAME(far.example.net)" |}.

Definition halted_world : World :=
  {| stopping := true; made := Ok dns0; polls := []; emitted := Ok tt |}.

Definition calm_world : World :=
  {| stopping := false; made := Ok dns0; polls := [Waiting true]; emitted := Ok tt |}.

Definition dns2 : Event :=
  {| type := "DNS_NAME"; source := None; tags := ∅; module := None;
     scope_distance := 2; event_str := "DNS_NAME(cdn.example.org)" |}.

(** A scan in which another batching module is at work. *)
Definition busy_view : ScanView :=
  {| scan_status := "RUNNING"; scan_modules := [(1, false); (2, true)] |}.

(** A scan that is finishing. *)
Definition finishing_view : ScanView :=
  {| scan_status := "FINISHING"; scan_modules := [(2, true)] |}.

Definition invalid_target : Exc :=
  {| exc_class := ValidationError;
     exc_str := "Unable to autodetect event type";
     exc_traceback := "Traceback (most recent call last): ..." |}.

(** The factory refuses the data. *)
Definition invalid_world : World :=
  {| stopping := false; made := Raise invalid_target;
     polls := [Waiting true]; emitted := Ok tt |}.

(** Ctrl-C: an exception that is no instance of [Exception]. *)
Definition keyboard_interrupt : Exc :=
  {| exc_class := KeyboardInterrupt;
     exc_str := "";
     exc_traceback := "Traceback (most recent call last): ..." |}.

(** A module whose custom predicate is interrupted. *)
Definition interrupted_filter : ModuleClass :=
  {| watched_events := ["*"]; target_only := false; in_scope_only := false;
     scope_distance_modifier := Some (-1); batch_size := 1;
     _name := "interrupted_filter"; _type := "scan";
     setup := Ok (Plain (Some true));
     filter_event := fun _ => Raise keyboard_interrupt |}.


(** A permit at the first poll and a manager that is interrupted. *)
Definition interrupted_world : World :=
  {| stopping := false; made := Ok dns0; polls := [Waiting true];
     emitted := Raise keyboard_interrupt |}.

(** * Proofs *)

(** Unfolds the monad operations, leaving the methods folded. *)
Ltac unfold_M :=
  cbv [mbind mret M_bind M_ret bind ret call raise get modify effect
       debug warning error try_except catch submit_internal] in *.

Section Proofs.
Context {cls : ModuleClass} (scan : Scan).

(** *** The batch collector *)

Lemma events_of_app a b : events_of (a ++ b) = events_of a ++ events_of b.
Proof. unfold events_of. apply omap_app. Qed.

Lemma has_token_app tok a b : has_token tok (a ++ b) = has_token tok a || has_token tok b.
Proof. unfold has_token. apply existsb_app. Qed.

(** The loop takes a prefix off the queue, appends its events and ors its
    tokens into the flags; it stops at the end of the queue or when the
    budget is used up. *)
Lemma drain_spec q : forall left events finish report,
  0 <= left ->
  exists consumed rest,
    q = consumed ++ rest /\
    drain left q events finish report =
      ((events ++ events_of consumed,
        finish || has_token "FINISHED" consumed,
        report || has_token "REPORT" consumed), rest) /\
    Z.of_nat (length (events_of consumed)) <= left /\
    (rest = [] \/ Z.of_nat (length (events_of consumed)) = left).
Proof.
  induction q as [|x q IH]; intros left events finish report Hl.
  - exists [], []. simpl. destruct (left >? 0) eqn:E;
      rewrite app_nil_r, !orb_false_r; repeat split; auto; lia.
  - destruct (left >? 0) eqn:E.
    + destruct x as [s|e].
      * destruct (IH left events
                    (finish || bool_decide (s = "FINISHED"))
                    (report || (negb (bool_decide (s = "FINISHED")) && bool_decide (s = "REPORT"))) Hl)
          as (c & r & -> & Hd & Hlen & Hend).
        exists (Str s :: c), r. split; [reflexivity|].
        split; [|split; [exact Hlen | exact Hend]].
        cbn [drain]. rewrite E.
        cbn [has_token existsb]. fold (has_token "FINISHED" c) (has_token "REPORT" c).
        cbn [events_of omap list_omap]. fold (events_of c).
        repeat case_bool_decide; subst; try discriminate;
          cbn [negb andb] in Hd; rewrite ?orb_true_r, ?orb_false_r in Hd;
          rewrite Hd; cbn [orb]; rewrite ?orb_true_r; reflexivity.
      * assert (Hl' : 0 <= left - 1) by lia.
        destruct (IH (left - 1) (events ++ [e]) finish report Hl')
          as (c & r & -> & Hd & Hlen & Hend).
        exists (Ev e :: c), r. split; [reflexivity|].
        cbn [drain]. rewrite E, Hd.
        cbn [events_of omap list_omap has_token existsb orb]. fold (events_of c).
        rewrite <- app_assoc. cbn [app length].
        repeat split; try reflexivity; [lia | destruct Hend; [left; assumption | right; lia]].
    + exists [], (x :: q). cbn [drain]. rewrite E. simpl.
      rewrite app_nil_r, !orb_false_r. repeat split; auto; lia.
Qed.

Lemma set_event_queue_same s : set_event_queue (_event_queue s) s = s.
Proof. destruct s; reflexivity. Qed.

Lemma take_events_of consumed rest (n : Z) :
  Z.of_nat (length (events_of consumed)) <= n ->
  rest = [] \/ Z.of_nat (length (events_of consumed)) = n ->
  events_of consumed = take (Z.to_nat n) (events_of (consumed ++ rest)).
Proof.
  intros Hle [-> | Heq].
  - rewrite app_nil_r, take_ge; [reflexivity | lia].
  - rewrite events_of_app, take_app_length'; [reflexivity | lia].
Qed.

(** C5.  In any state, with [batch_size] not negative, [events_waiting]
    returns a triple (events, saw_finish, saw_report) and takes a prefix
    [consumed] off the queue: the events are the events of that prefix,
    at most [batch_size] of them, and the drain stops early only when the
    batch is full.  Strings do not use up the budget: the events are the
    first [batch_size] events of the whole queue whatever strings lie
    between them.  Every token in the prefix is gone from the queue and
    recorded: [saw_finish] tells whether "FINISHED" was consumed,
    [saw_report] whether "REPORT" was. *)
Theorem events_waiting_drain (s : State) :
  0 <= batch_size ->
  exists events saw_finish saw_report consumed rest q',
    events_waiting s = (Ok (events, saw_finish, saw_report), set_event_queue q' s) /\
    queue_items (_event_queue s) = consumed ++ rest /\
    queue_items q' = rest /\
    events = events_of consumed /\
    (rest = [] \/ Z.of_nat (length events) = batch_size) /\
    Z.of_nat (length events) <= batch_size /\
    events = take (Z.to_nat batch_size) (events_of (queue_items (_event_queue s))) /\
    saw_finish = has_token "FINISHED" consumed /\
    saw_report = has_token "REPORT" consumed.
Proof.
  intros Hbs. unfold events_waiting, event_queue.
  destruct (batch_size >? 0) eqn:E.
  - unfold_M.
    destruct (_event_queue s) as [| |items] eqn:Hq.
    + (* the queue is created empty *)
      exists [], false, false, [], [], (Queue []).
      cbn [drain queue_items app events_of omap list_omap has_token existsb length].
      rewrite E, take_nil. repeat split; auto; lia.
    + exists [], false, false, [], [], QFalse.
      rewrite <- Hq, set_event_queue_same, Hq.
      cbn [queue_items app events_of omap list_omap has_token existsb length].
      rewrite take_nil. repeat split; auto; lia.
    + destruct (drain_spec items batch_size [] false false Hbs)
        as (c & r & -> & Hd & Hlen & Hend).
      rewrite Hd. cbn [app orb] in *.
      exists (events_of c), (has_token "FINISHED" c), (has_token "REPORT" c), c, r, (Queue r).
      cbn [queue_items]. repeat split; auto.
      now apply take_events_of.
  - assert (batch_size = 0) as Hz by lia.
    exists [], false, false, [], (queue_items (_event_queue s)), (_event_queue s).
    rewrite set_event_queue_same, Hz. unfold_M.
    cbn [app events_of omap list_omap has_token existsb length Z.to_nat take].
    repeat split; auto; lia.
Qed.
(** *** Effects accumulate at the end of the trace *)

Lemma add_effect_effects x s : add_effect x s = add_effects [x] s.
Proof. reflexivity. Qed.

Lemma add_effects_nil s : add_effects [] s = s.
Proof. destruct s; unfold add_effects; cbn. now rewrite app_nil_r. Qed.

Lemma add_effects_app l1 l2 s :
  add_effects l2 (add_effects l1 s) = add_effects (l1 ++ l2) s.
Proof. unfold add_effects; cbn. now rewrite app_assoc. Qed.

(** *** [_cleanup] *)

Lemma run_callbacks_spec l : forall s,
  run_callbacks l s = (Ok tt, add_effects (map cleanup_call (callables l)) s).
Proof.
  induction l as [|[f|r] l IH]; intros s; cbn [run_callbacks callables map].
  - now rewrite add_effects_nil.
  - unfold_M. rewrite IH, add_effect_effects, add_effects_app. reflexivity.
  - apply IH.
Qed.

Lemma cleanup_first s :
  _cleanedup s = false ->
  _cleanup s = (Ok tt, add_effects (cleanup_calls s) (set_cleanedup true s)).
Proof.
  intros H. unfold _cleanup. unfold_M. rewrite H. cbn [negb].
  rewrite run_callbacks_spec. reflexivity.
Qed.

Lemma cleanup_again s : _cleanedup s = true -> _cleanup s = (Ok tt, s).
Proof. intros H. unfold _cleanup. unfold_M. now rewrite H. Qed.

(** C9.  On a module that has not been cleaned up, calling [_cleanup]
    N times (N at least 1) leaves exactly one run of the callbacks in the
    trace: [self.catch(cleanup, _force=True)] first, then one
    [self.catch(cb, _force=True)] for each callable entry of
    [cleanup_callbacks] in list order; every one of the N calls returns
    normally. *)
Theorem cleanup_runs_callbacks_once (N : nat) (s : State) :
  (1 <= N)%nat ->
  _cleanedup s = false ->
  Nat.iter N (fun s => (_cleanup s).2) s
    = add_effects (map cleanup_call (m_cleanup :: callables (cleanup_callbacks s)))
        (set_cleanedup true s)
  /\ forall k, (k < N)%nat ->
       (_cleanup (Nat.iter k (fun s => (_cleanup s).2) s)).1 = Ok tt.
Proof.
  intros HN Hs.
  assert (Hiter : forall n, Nat.iter (S n) (fun s => (_cleanup s).2) s
                   = add_effects (cleanup_calls s) (set_cleanedup true s)).
  { induction n as [|n IH].
    - rewrite Nat.iter_succ. cbn [Nat.iter nat_rect]. now rewrite cleanup_first.
    - rewrite Nat.iter_succ, IH, cleanup_again; reflexivity. }
  split.
  - destruct N as [|n]; [lia | apply Hiter].
  - intros [|k] _.
    + cbn [Nat.iter nat_rect]. now rewrite cleanup_first.
    + rewrite Hiter, cleanup_again; reflexivity.
Qed.

(** *** The errored state *)

Lemma set_error_state_fresh message s :
  errored s = false ->
  exists log,
    set_error_state message s
      = (Ok tt, add_effects log (set_event_queue QFalse (set_errored true s))).
Proof.
  intros H.
  exists (match message with Some msg => [Log ERROR msg] | None => [] end
          ++ [Log DEBUG ("Setting error state for module " +:+ name)]
          ++ match _event_queue s with
             | QFalse => []
             | _ => [Log DEBUG "Emptying event_queue"]
             end).
  destruct s as [er q bi cb cu we ef]. cbn in H. subst er.
  unfold set_error_state, event_queue. unfold_M.
  destruct message as [msg|], q as [| |items]; cbn;
    unfold add_effects, add_effect, set_event_queue, set_errored; cbn;
    rewrite <- ?app_assoc; reflexivity.
Qed.

Lemma set_error_state_errored message s :
  errored s = true ->
  set_error_state message s
    = (Ok tt, match message with
              | Some msg => add_effect (Log ERROR msg) s
              | None => s
              end).
Proof.
  intros H. unfold set_error_state. unfold_M.
  destruct message; cbn; now rewrite H.
Qed.

Lemma queue_event_errored event s :
  errored s = true -> _event_queue s = QFalse ->
  queue_event scan event s
    = (Ok tt, add_effect (Log DEBUG "Not in an acceptable state to queue event") s).
Proof.
  intros He Hq. unfold queue_event, event_queue. unfold_M.
  rewrite Hq. cbn. now rewrite He.
Qed.

Lemma run_op_errored o s :
  errored s = true -> _event_queue s = QFalse ->
  errored (run_op scan o s) = true /\ _event_queue (run_op scan o s) = QFalse.
Proof.
  intros He Hq. destruct o as [event|message| |force| |]; cbn [run_op].
  - rewrite queue_event_errored by assumption. now cbn.
  - rewrite set_error_state_errored by assumption. destruct message; now cbn.
  - destruct (_cleanedup s) eqn:Hc.
    + now rewrite cleanup_again.
    + rewrite cleanup_first by assumption. now cbn.
  - unfold _handle_batch, num_queued_events, event_queue. unfold_M.
    rewrite Hq. now cbn.
  - unfold _worker_single, event_queue. unfold_M. rewrite Hq. now cbn.
  - unfold _setup. unfold_M. cbn -[set_error_state].
    destruct setup as [[st|st msg]|e]; cbn -[set_error_state]; [now cbn | now cbn |].
    destruct (is_Exception e); [|now cbn].
    rewrite set_error_state_errored by assumption. now cbn.
Qed.





(** *** [_setup] *)


(** *** [_handle_batch] *)

Lemma drain_tokens_only items : forall left finish report,
  0 < left ->
  forallb is_str items = true ->
  drain left items [] finish report
    = (([], finish || has_token "FINISHED" items,
            report || has_token "REPORT" items), []).
Proof.
  intros left finish report Hl Hall.
  destruct (drain_spec items left [] finish report) as (c & r & -> & Hd & Hlen & Hend);
    [lia|].
  assert (Hc : events_of c = []).
  { rewrite forallb_app in Hall. apply andb_prop in Hall as [Hall _]. clear -Hall.
    induction c as [|[x|x] c IH]; cbn in *; auto; discriminate. }
  rewrite Hc in *. cbn in Hend. destruct Hend as [-> | ?]; [|lia].
  rewrite app_nil_r in *. now rewrite Hd.
Qed.

(** Whatever tokens a forced drain finds, [_handle_batch] submits
    nothing when the drain yields no event. *)
Lemma handle_batch_tokens_only items s :
  0 < batch_size ->
  _event_queue s = Queue items ->
  items <> [] ->
  forallb is_str items = true ->
  _handle_batch true s
    = (Ok false, set_event_queue (Queue []) (set_batch_idle 0 s)).
Proof.
  intros Hbs Hq Hne Hall.
  unfold _handle_batch, num_queued_events, events_waiting, event_queue. unfold_M.
  rewrite Hq.
  destruct items as [|x items]; [congruence|].
  assert (Hbs' : (batch_size >? 0) = true) by now apply Z.gtb_lt.
  assert (Hn : (Z.of_nat (length (x :: items)) >? 0) = true)
    by (apply Z.gtb_lt; cbn [length]; lia).
  rewrite Hn, Hbs'. cbn -[drain]. rewrite Hq.
  rewrite drain_tokens_only by assumption. reflexivity.
Qed.

(** *** The acceptance filter: pre-check *)

Lemma get_watched_events_spec s :
  get_watched_events s = (Ok (watched_set s), set_watched_events (Some (watched_set s)) s).
Proof.
  unfold get_watched_events, watched_set. unfold_M.
  destruct s as [er q bi cb cu [w|] ef]; reflexivity.
Qed.

Lemma watched_set_cached s :
  watched_set (set_watched_events (Some (watched_set s)) s) = watched_set s.
Proof. reflexivity. Qed.

Lemma any_watched_two a b s :
  any_watched [a; b] s
    = (Ok (bool_decide (a ∈ watched_set s) || bool_decide (b ∈ watched_set s)),
       set_watched_events (Some (watched_set s)) s).
Proof.
  cbn [any_watched]. unfold_M. rewrite get_watched_events_spec.
  destruct (bool_decide (a ∈ watched_set s)); [reflexivity|].
  rewrite get_watched_events_spec, watched_set_cached.
  destruct (bool_decide (b ∈ watched_set s)); reflexivity.
Qed.

(** The decision of the pre-check on an event, check by check. *)
Lemma precheck_event e s :
  _event_precheck (Ev e) s =
    (Ok (if negb (bool_decide ("*" ∈ watched_set s) || bool_decide (type e ∈ watched_set s))
         then (false, "its type is not in watched_events")
         else if target_only && negb (bool_decide ("target" ∈ tags e))
         then (false, "it did not meet target_only filter criteria")
         else if bool_decide (source_type e = "IP_RANGE")
                 && bool_decide (type e = "IP_ADDRESS")
                 && bool_decide (str_opt (module e) = "speculate")
                 && negb (bool_decide (name = "speculate"))
                 && (bool_decide ("IP_RANGE" ∈ watched_events)
                     && (bool_decide ("IP_ADDRESS" ∈ watched_events) && true))
         then (false, "module consumes IP ranges directly")
         else (true, "")),
     set_watched_events (Some (watched_set s)) s).
Proof.
  unfold _event_precheck. unfold_M. rewrite any_watched_two.
  cbn [forallb].
  repeat match goal with |- context [if ?b then _ else _] => destruct b end;
    reflexivity.
Qed.

Lemma precheck_other_string s str :
  str <> "FINISHED" -> str <> "REPORT" ->
  _event_precheck (Str str) s
    = (Ok (false, "string value " +:+ dquote +:+ str +:+ dquote +:+ " is invalid"), s).
Proof.
  intros H1 H2. unfold _event_precheck. unfold_M.
  rewrite bool_decide_eq_false_2; [reflexivity|].
  intros Hin. apply elem_of_cons in Hin as [-> | Hin]; [congruence|].
  apply elem_of_cons in Hin as [-> | Hin]; [congruence|].
  now apply elem_of_nil in Hin.
Qed.

(** C6.  The pre-check accepts the strings "FINISHED" and "REPORT" in
    any state; it rejects every other string, the reason being the text
    string value "<the string>" is invalid; it rejects an event for its
    type when the type is not in the watched set and the set does not
    hold "*", and not when the set holds the type or "*"; and when
    [target_only] is set it rejects an event whose tags do not hold
    "target" (with a non-empty reason). *)
Theorem precheck_strings_types_targets (s : State) (e : Event) (str : string) :
  _event_precheck (Str "FINISHED") s = (Ok (true, ""), s)
  /\ _event_precheck (Str "REPORT") s = (Ok (true, ""), s)
  /\ (str <> "FINISHED" -> str <> "REPORT" ->
      _event_precheck (Str str) s
        = (Ok (false, "string value " +:+ dquote +:+ str +:+ dquote +:+ " is invalid"), s))
  /\ ("*" ∉ watched_set s -> type e ∉ watched_set s ->
      (_event_precheck (Ev e) s).1 = Ok (false, "its type is not in watched_events"))
  /\ ("*" ∈ watched_set s \/ type e ∈ watched_set s ->
      (_event_precheck (Ev e) s).1 <> Ok (false, "its type is not in watched_events"))
  /\ (target_only = true -> "target" ∉ tags e ->
      exists reason, reason <> "" /\ (_event_precheck (Ev e) s).1 = Ok (false, reason)).
Proof.
  split; [reflexivity|]. split; [reflexivity|].
  split; [apply precheck_other_string|]. split; [|split].
  - intros H1 H2. rewrite precheck_event. cbn [fst].
    rewrite !bool_decide_eq_false_2 by assumption. reflexivity.
  - intros Hw. rewrite precheck_event. cbn [fst].
    assert (E : bool_decide ("*" ∈ watched_set s) || bool_decide (type e ∈ watched_set s)
                = true).
    { apply orb_true_iff. destruct Hw as [Hw | Hw]; [left | right];
        now apply bool_decide_eq_true_2. }
    rewrite E. cbn [negb].
    repeat match goal with |- context [if ?b then _ else _] => destruct b end;
      discriminate.
  - intros Ht Htag. rewrite precheck_event. cbn [fst]. rewrite Ht.
    rewrite (bool_decide_eq_false_2 _ Htag). cbn [negb andb].
    destruct (negb _); eexists; (split; [|reflexivity]); discriminate.
Qed.

(** C7.  With the cache of watched events coherent, the pre-check
    rejects an event with reason "module consumes IP ranges directly"
    exactly when its source has type "IP_RANGE", its type is
    "IP_ADDRESS", its module is "speculate", this module is not
    "speculate", this module watches both "IP_RANGE" and "IP_ADDRESS",
    and the earlier [target_only] check lets the event through
    ([target_only] unset, or "target" among the tags). *)
Theorem precheck_speculation_collision (s : State) (e : Event) :
  watched_coherent s ->
  (_event_precheck (Ev e) s).1 = Ok (false, "module consumes IP ranges directly")
  <->
  (source_type e = "IP_RANGE"
   /\ type e = "IP_ADDRESS"
   /\ module e = Some "speculate"
   /\ name <> "speculate"
   /\ "IP_RANGE" ∈ watched_events
   /\ "IP_ADDRESS" ∈ watched_events
   /\ (target_only = true -> "target" ∈ tags e)).
Proof.
  intros Hcoh. rewrite precheck_event. cbn [fst].
  assert (HW : forall x, x ∈ watched_set s <-> x ∈ watched_events).
  { intros x. unfold watched_set. destruct Hcoh as [-> | ->]; apply elem_of_list_to_set. }
  assert (Hmod : str_opt (module e) = "speculate" <-> module e = Some "speculate").
  { destruct (module e) as [m|]; cbn; split; intros H; try congruence; discriminate. }
  split.
  - intros H.
    destruct (negb _) eqn:E1; [discriminate|].
    destruct (target_only && _) eqn:E2; [discriminate|].
    destruct (_ && _) eqn:E3 in H; [clear H | discriminate].
    apply andb_prop in E3 as [E3 Hw]. apply andb_prop in E3 as [E3 Hn].
    apply andb_prop in E3 as [E3 Hm]. apply andb_prop in E3 as [Hsrc Hty].
    apply andb_prop in Hw as [Hr Ha]. apply andb_prop in Ha as [Ha _].
    apply negb_true_iff, bool_decide_eq_false_1 in Hn.
    apply bool_decide_eq_true_1 in Hsrc, Hty, Hm, Hr, Ha.
    split; [assumption|]. split; [assumption|]. split; [now apply Hmod|].
    split; [assumption|]. split; [assumption|]. split; [assumption|].
    intros Ht. rewrite Ht in E2. cbn in E2.
    apply negb_false_iff, bool_decide_eq_true_1 in E2. exact E2.
  - intros (Hsrc & Hty & Hm & Hn & Hr & Ha & Htag).
    rewrite (bool_decide_eq_true_2 (type e ∈ watched_set s))
      by (apply HW; now rewrite Hty).
    rewrite orb_true_r. cbn [negb].
    assert (E2 : target_only && negb (bool_decide ("target" ∈ tags e)) = false).
    { destruct target_only; [|reflexivity].
      now rewrite (bool_decide_eq_true_2 _ (Htag eq_refl)). }
    rewrite E2.
    rewrite (bool_decide_eq_true_2 _ Hsrc), (bool_decide_eq_true_2 _ Hty),
      (bool_decide_eq_true_2 _ (proj2 Hmod Hm)), (bool_decide_eq_false_2 _ Hn),
      (bool_decide_eq_true_2 _ Hr), (bool_decide_eq_true_2 _ Ha).
    reflexivity.
Qed.

(** *** The acceptance filter: post-check *)

Lemma max_scope_distance_spec k s :
  scope_distance_modifier = Some k ->
  max_scope_distance scan s = (Ok (scope_cap scan k), s).
Proof.
  intros Hk. unfold max_scope_distance, scope_cap. rewrite Hk.
  destruct (in_scope_only || target_only); reflexivity.
Qed.

Lemma custom_filter_run e s :
  (try_except is_Exception
     (keep ← call (filter_event e);
      if negb keep then
        mret (Some (false, event_str e +:+ " did not meet custom filter criteria"))
      else mret None)
     (fun exc =>
        error ("Error in filter_event(" +:+ event_str e +:+ "): " +:+ exc_str exc);;
        debug (exc_traceback exc);;
        mret None)
   ≫= fun custom => match custom with
                     | Some rejected => mret rejected
                     | None => mret (true, "")
                     end) s
  = custom_step e s.
Proof.
  unfold custom_step. unfold_M.
  destruct (filter_event e) as [[|]|exc]; cbn; try reflexivity.
  destruct (is_Exception exc); [|reflexivity].
  now rewrite !add_effect_effects, add_effects_app.
Qed.

(** The post-check on an event, check by check. *)
Lemma postcheck_event e s :
  _event_postcheck scan (Ev e) s =
    if in_scope_only && (scope_distance e >? 0) then
      (Ok (false, "it did not meet in_scope_only filter criteria"), s)
    else match scope_distance_modifier with
         | Some k =>
             if scope_distance e <? 0 then
               (Ok (false, "its scope_distance (" +:+ pretty (scope_distance e)
                           +:+ ") is invalid."), s)
             else if scope_distance e >? scope_cap scan k then
               (Ok (false,
                    "its scope_distance (" +:+ pretty (scope_distance e)
                    +:+ ") exceeds the maximum allowed by the scan ("
                    +:+ pretty (scope_search_distance scan)
                    +:+ ") + the module (" +:+ pretty k
                    +:+ ") == " +:+ pretty (scope_cap scan k)), s)
             else custom_step e s
         | None => custom_step e s
         end.
Proof.
  unfold _event_postcheck.
  destruct (in_scope_only && (scope_distance e >? 0)); [reflexivity|].
  destruct scope_distance_modifier as [k|] eqn:Hk.
  - destruct (scope_distance e <? 0) eqn:Hneg.
    + reflexivity.
    + rewrite <- custom_filter_run. unfold_M.
      rewrite (max_scope_distance_spec k s Hk).
      destruct (scope_distance e >? scope_cap scan k); [|reflexivity].
      now rewrite (max_scope_distance_spec k s Hk).
  - rewrite <- custom_filter_run. reflexivity.
Qed.

(** C3.  If the post-check accepts an event then: with [in_scope_only]
    its scope distance is not above 0, and with a modifier [k] its scope
    distance lies between 0 and [max_scope_distance], which is 0 under
    [in_scope_only] or [target_only] and
    max(0, scope_search_distance + k) otherwise.  With [in_scope_only]
    every event of scope distance above 0 is rejected.  With the
    modifier [None] no cap is checked: once the [in_scope_only] check is
    passed the custom predicate alone decides. *)
Theorem postcheck_scope_distance (e : Event) (s : State) :
  (forall reason s',
      _event_postcheck scan (Ev e) s = (Ok (true, reason), s') ->
      (in_scope_only = true -> scope_distance e <= 0)
      /\ forall k, scope_distance_modifier = Some k ->
           max_scope_distance scan s
             = (Ok (if in_scope_only || target_only then 0
                    else Z.max 0 (scope_search_distance scan + k)), s)
           /\ 0 <= scope_distance e
                <= (if in_scope_only || target_only then 0
                    else Z.max 0 (scope_search_distance scan + k)))
  /\ (in_scope_only = true -> 0 < scope_distance e ->
      _event_postcheck scan (Ev e) s
        = (Ok (false, "it did not meet in_scope_only filter criteria"), s))
  /\ (scope_distance_modifier = None ->
      (in_scope_only = true -> scope_distance e <= 0) ->
      _event_postcheck scan (Ev e) s = custom_step e s).
Proof.
  rewrite postcheck_event. split; [|split].
  - intros reason s' H. split.
    + intros Hin. rewrite Hin in H. cbn [andb] in H.
      destruct (scope_distance e >? 0) eqn:E; [discriminate|]. lia.
    + intros k Hk. split; [now apply max_scope_distance_spec|].
      fold (scope_cap scan k). rewrite Hk in H.
      destruct (in_scope_only && _); [discriminate|].
      destruct (scope_distance e <? 0) eqn:E1; [discriminate|].
      destruct (scope_distance e >? scope_cap scan k) eqn:E2; [discriminate|]. lia.
  - intros Hin Hpos. rewrite Hin. cbn [andb].
    now rewrite (proj2 (Z.gtb_lt _ _) Hpos).
  - intros Hnone Hin. rewrite Hnone.
    destruct in_scope_only; [|reflexivity]. specialize (Hin eq_refl).
    cbn [andb]. destruct (scope_distance e >? 0) eqn:E; [lia | reflexivity].
Qed.

(** C8.  For an event that passes the scope checks of the post-check:
    if [filter_event] returns false the event is rejected (reason
    "<event> did not meet custom filter criteria"); if [filter_event]
    raises an [Exception] the error and the traceback are logged and the
    event is accepted; if it returns true the event is accepted. *)
Theorem postcheck_custom_filter (e : Event) (s : State) :
  passes_scope_checks scan e ->
  (filter_event e = Ok false ->
   _event_postcheck scan (Ev e) s
     = (Ok (false, event_str e +:+ " did not meet custom filter criteria"), s))
  /\ (forall exc, filter_event e = Raise exc -> is_Exception exc = true ->
      _event_postcheck scan (Ev e) s
        = (Ok (true, ""),
           add_effects [Log ERROR ("Error in filter_event(" +:+ event_str e +:+ "): "
                                   +:+ exc_str exc);
                        Log DEBUG (exc_traceback exc)] s))
  /\ (filter_event e = Ok true ->
      _event_postcheck scan (Ev e) s = (Ok (true, ""), s)).
Proof.
  intros [Hin Hcap].
  assert (H : _event_postcheck scan (Ev e) s = custom_step e s).
  { rewrite postcheck_event.
    assert (E0 : in_scope_only && (scope_distance e >? 0) = false).
    { destruct in_scope_only; [|reflexivity]. specialize (Hin eq_refl).
      cbn [andb]. destruct (scope_distance e >? 0) eqn:E; [lia | reflexivity]. }
    rewrite E0. destruct scope_distance_modifier as [k|]; [|reflexivity].
    specialize (Hcap k eq_refl).
    destruct (scope_distance e <? 0) eqn:E1; [lia|].
    destruct (scope_distance e >? scope_cap scan k) eqn:E2; [lia | reflexivity]. }
  rewrite H. unfold custom_step. split; [|split].
  - now intros ->.
  - intros exc -> ->. reflexivity.
  - now intros ->.
Qed.

(** *** [emit_event] *)

Lemma permits_held_app t1 t2 :
  permits_held (t1 ++ t2) = permits_held t1 + permits_held t2.
Proof.
  induction t1 as [|x t1 IH]; [reflexivity|].
  destruct x as [| | | | |e [|]|e|]; cbn [app permits_held]; lia.
Qed.

Lemma permits_held_refused e n :
  permits_held (repeat (AcquireSemaphore e false) n) = 0.
Proof. induction n as [|n IH]; [reflexivity | exact IH]. Qed.

Lemma make_event_ok raise_error e s :
  make_event raise_error (Ok e) s = (Ok (Some (claimed e)), add_effect MakeEvent s).
Proof.
  unfold make_event, claimed. unfold_M. destruct (module e); reflexivity.
Qed.

(** The loop polls until a permit is granted, then hands the event over. *)
Lemma emit_loop_acquires e kw em rest n : forall s,
  emit_loop e kw em (repeat (Waiting false) n ++ Waiting true :: rest) s
  = let s1 := add_effects (repeat (AcquireSemaphore e false) n
                           ++ [AcquireSemaphore e true; ManagerEmit e kw]) s in
    match em with
    | Ok _ => (Ok (Some tt), s1)
    | Raise x =>
        if is_Exception x then
          (Ok (Some tt),
           add_effects [ReleaseSemaphore e;
                        Log ERROR ("Unexpected error in " +:+ name +:+ ".emit_event()");
                        Log DEBUG (exc_traceback x)] s1)
        else (Raise x, s1)
    end.
Proof.
  induction n as [|n IH]; intros s.
  - cbn [repeat app emit_loop negb]. unfold_M.
    destruct em as [[]|x]; [|destruct (is_Exception x)];
      rewrite ?add_effect_effects, ?add_effects_app; reflexivity.
  - cbn [repeat app emit_loop negb]. unfold_M.
    rewrite IH. cbn zeta.
    destruct em as [[]|x]; [|destruct (is_Exception x)];
      rewrite ?add_effect_effects, ?add_effects_app; reflexivity.
Qed.

(** When the scan starts stopping while the loop waits, the loop ends
    with no permit taken and nothing handed to the manager. *)
Lemma emit_loop_stopping e kw em rest n : forall s,
  emit_loop e kw em (repeat (Waiting false) n ++ Stopping :: rest) s
  = (Ok (Some tt), add_effects (repeat (AcquireSemaphore e false) n) s).
Proof.
  induction n as [|n IH]; intros s.
  - cbn [repeat app emit_loop]. now rewrite add_effects_nil.
  - cbn [repeat app emit_loop negb]. unfold_M.
    rewrite IH, add_effect_effects, add_effects_app. reflexivity.
Qed.

(** C4.  If the scan is stopping on entry, [emit_event] returns with
    the state and the trace untouched: no event is made and no permit
    is asked for.  Otherwise, once [make_event] has produced the event
    and a poll has obtained a permit (after any number of refused
    polls), the manager's [emit_event] is called with the event.  When
    that call returns, nothing more happens: the permit stays taken.
    When it raises an [Exception], the permit is released and an error
    is logged, so the number of permits held is as before the call. *)
Theorem emit_event_gate (w : World) (kw : EmitKwargs) (raise_error : bool) (s : State) :
  (stopping w = true -> emit_event w kw raise_error s = (Ok (Some tt), s))
  /\ forall e n rest,
       stopping w = false ->
       made w = Ok e ->
       polls w = repeat (Waiting false) n ++ Waiting true :: rest ->
       let handed :=
         add_effects ([MakeEvent]
                      ++ repeat (AcquireSemaphore (claimed e) false) n
                      ++ [AcquireSemaphore (claimed e) true;
                          ManagerEmit (claimed e) kw]) s in
       (emitted w = Ok tt ->
        emit_event w kw raise_error s = (Ok (Some tt), handed)
        /\ permits_held (effects handed) = permits_held (effects s) + 1)
       /\ (forall x, emitted w = Raise x -> is_Exception x = true ->
           let released :=
             add_effects [ReleaseSemaphore (claimed e);
                          Log ERROR ("Unexpected error in " +:+ name +:+ ".emit_event()");
                          Log DEBUG (exc_traceback x)] handed in
           emit_event w kw raise_error s = (Ok (Some tt), released)
           /\ permits_held (effects released) = permits_held (effects s)).
Proof.
  split.
  - intros Hstop. unfold emit_event. now rewrite Hstop.
  - intros e n rest Hstop Hmade Hpolls handed.
    assert (Hrun : emit_event w kw raise_error s
                   = emit_loop (claimed e) kw (emitted w) (polls w)
                       (add_effect MakeEvent s)).
    { unfold emit_event. rewrite Hstop, Hmade. unfold_M.
      now rewrite make_event_ok. }
    rewrite Hrun, Hpolls, emit_loop_acquires. cbn zeta.
    rewrite add_effect_effects, add_effects_app.
    split.
    + intros ->. split; [reflexivity|].
      subst handed. cbn [effects add_effects].
      rewrite !permits_held_app, permits_held_refused. cbn [permits_held]. lia.
    + intros x -> ->. split; [reflexivity|].
      subst handed. cbn [effects add_effects].
      rewrite !permits_held_app, permits_held_refused. cbn [permits_held]. lia.
Qed.

(** *** Properties of the state that the methods leave alone *)

Section Frame.
Variable P : State -> Prop.
Hypothesis P_effect : forall x s, P s -> P (add_effect x s).
Hypothesis P_queue : forall q s, P s -> P (set_event_queue q s).
Hypothesis P_idle : forall n s, P s -> P (set_batch_idle n s).
Hypothesis P_cleanedup : forall b s, P s -> P (set_cleanedup b s).
Hypothesis P_watched :
  forall s, P s -> P (set_watched_events (Some (watched_set s)) s).

Lemma preserves_ret {A} (a : A) : preserves P (mret a).
Proof. intros s H. exact H. Qed.

Lemma preserves_bind {A B} (m : M A) (k : A -> M B) :
  preserves P m -> (forall a, preserves P (k a)) -> preserves P (m ≫= k).
Proof.
  intros Hm Hk s H. unfold_M. specialize (Hm s H).
  destruct (m s) as [[a|e] s']; [apply Hk|]; exact Hm.
Qed.

Lemma preserves_try_except {A} catches (m : M A) h :
  preserves P m -> (forall e, preserves P (h e)) ->
  preserves P (try_except catches m h).
Proof.
  intros Hm Hh s H. unfold_M. specialize (Hm s H).
  destruct (m s) as [[a|e] s']; [exact Hm|].
  destruct (catches e); [apply Hh|]; exact Hm.
Qed.

Lemma preserves_call {A} (r : Result A) : preserves P (call r).
Proof. intros s H. exact H. Qed.

Lemma preserves_raise {A} e : preserves P (@raise A e).
Proof. intros s H. exact H. Qed.

Lemma preserves_get : preserves P get.
Proof. intros s H. exact H. Qed.

Lemma preserves_modify f :
  (forall s, P s -> P (f s)) -> preserves P (modify f).
Proof. intros Hf s H. now apply Hf. Qed.

Lemma preserves_effect x : preserves P (effect x).
Proof. intros s H. now apply P_effect. Qed.

Lemma preserves_event_queue : preserves P event_queue.
Proof.
  intros s H. unfold event_queue. unfold_M.
  destruct (_event_queue s); cbn; auto.
Qed.

Lemma preserves_get_watched_events : preserves P get_watched_events.
Proof. intros s H. rewrite get_watched_events_spec. now apply P_watched. Qed.

#[local] Hint Resolve preserves_ret preserves_call preserves_raise preserves_get
  preserves_effect preserves_event_queue preserves_get_watched_events : frame.

Ltac frame :=
  repeat first
    [ progress intros
    | assumption
    | solve [unfold debug, warning, error, catch, submit_internal; auto with frame]
    | solve [apply preserves_modify; auto]
    | apply preserves_bind
    | apply preserves_try_except
    | match goal with
      | |- preserves _ (match ?x with _ => _ end) => destruct x
      | |- preserves _ (if ?b then _ else _) => destruct b
      | |- preserves _ (let '(_, _) := ?x in _) => destruct x
      end ].

Lemma preserves_any_watched ts : preserves P (any_watched ts).
Proof. induction ts as [|t ts IH]; cbn [any_watched]; frame. Qed.

Lemma preserves_precheck event : preserves P (_event_precheck event).
Proof.
  pose proof preserves_any_watched.
  unfold _event_precheck. destruct event as [str|e]; frame.
Qed.

Lemma preserves_max_scope_distance : preserves P (max_scope_distance scan).
Proof. unfold max_scope_distance. frame. Qed.

Lemma preserves_postcheck event : preserves P (_event_postcheck scan event).
Proof.
  pose proof preserves_max_scope_distance.
  unfold _event_postcheck. destruct event as [str|e]; frame.
Qed.

Lemma preserves_filter_event event precheck_only :
  preserves P (_filter_event scan event precheck_only).
Proof.
  pose proof preserves_precheck. pose proof preserves_postcheck.
  unfold _filter_event. frame.
Qed.

Lemma preserves_put event : preserves P (put event).
Proof.
  unfold put. frame.
Qed.

Lemma preserves_queue_event event : preserves P (queue_event scan event).
Proof.
  pose proof preserves_filter_event. pose proof preserves_put.
  unfold queue_event. frame.
Qed.

Lemma preserves_events_waiting : preserves P events_waiting.
Proof.
  unfold events_waiting. frame.
Qed.

Lemma preserves_num_queued_events : preserves P num_queued_events.
Proof. unfold num_queued_events. frame. Qed.

Lemma preserves_handle_batch force : preserves P (_handle_batch force).
Proof.
  pose proof preserves_events_waiting. pose proof preserves_num_queued_events.
  unfold _handle_batch. frame.
Qed.

Lemma preserves_worker_single : preserves P _worker_single.
Proof.
  unfold _worker_single. frame.
Qed.

Lemma preserves_run_callbacks l : preserves P (run_callbacks l).
Proof. induction l as [|[f|r] l IH]; cbn [run_callbacks]; frame. Qed.

Lemma preserves_cleanup : preserves P _cleanup.
Proof.
  pose proof preserves_run_callbacks.
  unfold _cleanup. frame.
Qed.

(** With [set_errored] harmless too, nothing at all disturbs [P]. *)
Hypothesis P_errored : forall b s, P s -> P (set_errored b s).

Lemma preserves_set_error_state message : preserves P (set_error_state message).
Proof.
  unfold set_error_state. frame.
Qed.

Lemma preserves_setup : preserves P _setup.
Proof.
  pose proof preserves_set_error_state.
  unfold _setup. frame.
Qed.

Lemma preserves_run_op o : forall s, P s -> P (run_op scan o s).
Proof.
  destruct o; cbn [run_op].
  - apply preserves_queue_event.
  - apply preserves_set_error_state.
  - apply preserves_cleanup.
  - apply preserves_handle_batch.
  - apply preserves_worker_single.
  - apply preserves_setup.
Qed.
End Frame.

(** *** Invariants of the entry points *)

(** Only [set_error_state] (directly or from [_setup]) writes [errored]. *)
Lemma run_op_keeps_errored o s :
  match o with OpSetErrorState _ | OpSetup => False | _ => True end ->
  errored (run_op scan o s) = errored s.
Proof.
  intros Ho.
  destruct o as [event|message| |force| |]; try contradiction; cbn [run_op].
  - now apply (preserves_queue_event (fun s' => errored s' = errored s)).
  - now apply (preserves_cleanup (fun s' => errored s' = errored s)).
  - now apply (preserves_handle_batch (fun s' => errored s' = errored s)).
  - now apply (preserves_worker_single (fun s' => errored s' = errored s)).
Qed.

Lemma state_ok_run_op o s : state_ok s -> state_ok (run_op scan o s).
Proof.
  intros Hok. destruct (errored s) eqn:He.
  - destruct (run_op_errored o s He (Hok He)) as [_ Hq]. now intros _.
  - destruct o as [event|message| |force| |];
      try (intros He'; rewrite run_op_keeps_errored in He' by exact I; congruence).
    + cbn [run_op]. destruct (set_error_state_fresh message s He) as [log ->].
      now intros _.
    + cbn [run_op]. unfold _setup. unfold_M. cbn -[set_error_state].
      destruct setup as [[st|st msg]|e]; cbn -[set_error_state];
        try (intros He'; cbn in He'; congruence).
      destruct (is_Exception e); [|intros He'; cbn in He'; congruence].
      match goal with
      | |- context [set_error_state None ?s0] =>
          destruct (set_error_state_fresh None s0 He) as [log ->]
      end.
      now intros _.
Qed.

Lemma watched_coherent_run_op o s :
  watched_coherent s -> watched_coherent (run_op scan o s).
Proof.
  apply (preserves_run_op watched_coherent); try (intros; assumption).
  intros s' [H | H]; right; unfold watched_set; cbn; now rewrite H.
Qed.

(** Every state that the entry points reach from [__init__] satisfies
    both invariants. *)
Lemma reachable_invariants ops :
  state_ok (run_ops scan ops init) /\ watched_coherent (run_ops scan ops init).
Proof.
  assert (H : forall s, state_ok s /\ watched_coherent s ->
                        state_ok (run_ops scan ops s) /\ watched_coherent (run_ops scan ops s)).
  { induction ops as [|o ops IH]; intros s [H1 H2]; [now split|].
    cbn [run_ops fold_left]. apply IH. split.
    - now apply state_ok_run_op.
    - now apply watched_coherent_run_op. }
  apply H. split; [intros E; discriminate E | now left].
Qed.

End Proofs.

(** * Further properties of the methods *)

Section MoreProofs.
Context {cls : ModuleClass} {lim : ModuleLimits} (scan : Scan).

(** *** What the filter changes and what it answers *)

Lemma append_nonempty_r (a b : string) : b <> "" -> a +:+ b <> "".
Proof.
  intros Hb. destruct a as [|c a]; [exact Hb|]. cbn. discriminate.
Qed.

Lemma custom_step_state e s : exists log, (custom_step e s).2 = add_effects log s.
Proof.
  unfold custom_step.
  destruct (filter_event e) as [[|]|exc]; [| |destruct (is_Exception exc)];
    cbn [snd]; try (exists []; now rewrite add_effects_nil).
  eexists. reflexivity.
Qed.

Lemma postcheck_state e s :
  exists log, (_event_postcheck scan (Ev e) s).2 = add_effects log s.
Proof.
  rewrite postcheck_event.
  repeat match goal with
         | |- context [if ?b then _ else _] => destruct b
         | |- context [match scope_distance_modifier with _ => _ end] =>
             destruct scope_distance_modifier
         end;
    try apply custom_step_state; exists []; now rewrite add_effects_nil.
Qed.

Lemma custom_step_rejects e s reason s' :
  custom_step e s = (Ok (false, reason), s') -> reason <> "".
Proof.
  unfold custom_step.
  destruct (filter_event e) as [[|]|exc]; [| |destruct (is_Exception exc)];
    intros H; inversion H; subst.
  apply append_nonempty_r. discriminate.
Qed.

Lemma postcheck_rejects e s reason s' :
  _event_postcheck scan (Ev e) s = (Ok (false, reason), s') -> reason <> "".
Proof.
  rewrite postcheck_event.
  repeat match goal with
         | |- context [if ?b then _ else _] => destruct b
         | |- context [match scope_distance_modifier with _ => _ end] =>
             destruct scope_distance_modifier
         end;
    try apply custom_step_rejects; intros H; inversion H; discriminate.
Qed.

Lemma precheck_event_cases e s :
  exists acc reason,
    _event_precheck (Ev e) s
      = (Ok (acc, reason), set_watched_events (Some (watched_set s)) s)
    /\ (acc = false -> reason <> "") /\ (acc = true -> reason = "").
Proof.
  rewrite precheck_event.
  repeat match goal with |- context [Ok (if ?b then _ else _)] => destruct b end;
    eexists _, _; (split; [reflexivity|]); split; intros H;
    try discriminate; reflexivity.
Qed.

(** The filter on a string: the post-check lets every string through, so
    the pre-check decides. *)
Lemma filter_event_str str precheck_only s :
  _filter_event scan (Str str) precheck_only s = _event_precheck (Str str) s.
Proof.
  unfold _filter_event, _event_precheck. unfold_M.
  destruct (bool_decide (str ∈ ["FINISHED"; "REPORT"])), precheck_only; reflexivity.
Qed.

(** The filter on an event: the post-check runs only after the pre-check
    has accepted, in the state the pre-check leaves. *)
Lemma filter_event_ev e precheck_only s :
  _filter_event scan (Ev e) precheck_only s =
    match _event_precheck (Ev e) s with
    | (Ok (true, reason), s1) =>
        if precheck_only then (Ok (true, reason), s1)
        else _event_postcheck scan (Ev e) s1
    | r => r
    end.
Proof.
  unfold _filter_event. unfold_M.
  destruct (_event_precheck (Ev e) s) as [[[[|] reason]|x] s1];
    destruct precheck_only; reflexivity.
Qed.

Lemma filter_event_state event precheck_only s :
  exists log,
    (_filter_event scan event precheck_only s).2
      = add_effects log (match event with
                         | Ev _ => set_watched_events (Some (watched_set s)) s
                         | Str _ => s
                         end).
Proof.
  destruct event as [str|e].
  - rewrite filter_event_str. exists []. rewrite add_effects_nil.
    unfold _event_precheck. unfold_M.
    destruct (bool_decide (str ∈ ["FINISHED"; "REPORT"])); reflexivity.
  - rewrite filter_event_ev.
    destruct (precheck_event_cases e s) as (acc & reason & -> & _).
    destruct acc, precheck_only; try (exists []; now rewrite add_effects_nil).
    apply postcheck_state.
Qed.

Lemma filter_event_rejects event precheck_only s reason s' :
  _filter_event scan event precheck_only s = (Ok (false, reason), s') -> reason <> "".
Proof.
  destruct event as [str|e].
  - rewrite filter_event_str. unfold _event_precheck. unfold_M.
    destruct (bool_decide (str ∈ ["FINISHED"; "REPORT"]));
      intros H; inversion H. discriminate.
  - rewrite filter_event_ev.
    destruct (precheck_event_cases e s) as (acc & r & -> & Hrej & _).
    destruct acc; [|intros H; inversion H; subst; now apply Hrej].
    destruct precheck_only; [intros H; inversion H|]. apply postcheck_rejects.
Qed.
(** *** [queue_event] *)

(** On a module that takes items, [queue_event] is the filter followed by
    the logging of a rejection or by [put]. *)
Lemma queue_event_run event s :
  errored s = false ->
  _event_queue s <> QFalse ->
  queue_event scan event s
  = ('(acceptable, reason) ← _filter_event scan event false;
     if negb acceptable && negb (bool_decide (reason = "")) then
       debug ("Not accepting " +:+ item_str event +:+ " because " +:+ reason)
     else
       (if is_event event then effect (EventConsumed event) else mret tt);;
       put event)
      (set_event_queue (Queue (queue_items (_event_queue s))) s).
Proof.
  intros He Hq. unfold queue_event, event_queue. unfold_M.
  destruct s as [er q bi cb cu we ef]. cbn in He, Hq. subst er.
  destruct q; [reflexivity | congruence | reflexivity].
Qed.

(** X1.  On a module that is not errored and whose queue is not disarmed,
    [queue_event] follows the verdict of [_filter_event]: an accepted
    item is put at the tail of the queue, after a call of the statistics
    collector when it is an event; a rejected item always comes with a
    non-empty reason, is logged and leaves the queue as it was; and an
    exception out of the filter leaves [queue_event] before anything is
    queued. *)
Theorem queue_event_follows_filter (event : Item) (s : State) :
  errored s = false ->
  _event_queue s <> QFalse ->
  let items := queue_items (_event_queue s) in
  match _filter_event scan event false (set_event_queue (Queue items) s) with
  | (Ok (true, _), s1) =>
      queue_event scan event s
      = (Ok tt,
         set_event_queue (Queue (items ++ [event]))
           (if is_event event then add_effect (EventConsumed event) s1 else s1))
  | (Ok (false, reason), s1) =>
      reason <> ""
      /\ _event_queue s1 = Queue items
      /\ queue_event scan event s
         = (Ok tt,
            add_effect (Log DEBUG ("Not accepting " +:+ item_str event
                                   +:+ " because " +:+ reason)) s1)
  | (Raise x, s1) =>
      _event_queue s1 = Queue items
      /\ queue_event scan event s = (Raise x, s1)
  end.
Proof.
  intros He Hq items.
  set (s0 := set_event_queue (Queue items) s).
  rewrite (queue_event_run event s He Hq). fold items s0.
  destruct (filter_event_state event false s0) as [log Hst].
  pose proof (filter_event_rejects event false s0) as Hrej.
  unfold_M.
  destruct (_filter_event scan event false s0) as [[[[|] reason]|x] s1]; cbn [snd] in Hst.
  - cbn [negb andb]. unfold put, event_queue. unfold_M.
    destruct (is_event event); cbn [_event_queue add_effect];
      rewrite Hst; destruct event; reflexivity.
  - specialize (Hrej reason s1 eq_refl).
    split; [exact Hrej|]. split; [rewrite Hst; now destruct event|].
    cbn [negb andb]. now rewrite (bool_decide_eq_false_2 _ Hrej).
  - split; [rewrite Hst; now destruct event | reflexivity].
Qed.

(** X2.  A module that is not errored queues the tokens "FINISHED" and
    "REPORT" whatever its filter settings and without a call of the
    statistics collector, and queues no other string. *)
Theorem queue_event_strings (str : string) (s : State) :
  errored s = false ->
  _event_queue s <> QFalse ->
  let items := queue_items (_event_queue s) in
  queue_event scan (Str str) s
  = (Ok tt,
     if bool_decide (str = "FINISHED") || bool_decide (str = "REPORT") then
       set_event_queue (Queue (items ++ [Str str])) s
     else
       add_effect (Log DEBUG ("Not accepting " +:+ str +:+ " because string value "
                              +:+ dquote +:+ str +:+ dquote +:+ " is invalid"))
         (set_event_queue (Queue items) s)).
Proof.
  intros He Hq items.
  rewrite (queue_event_run (Str str) s He Hq). fold items.
  unfold_M. rewrite filter_event_str. unfold _event_precheck, put, event_queue. unfold_M.
  destruct (bool_decide (str = "FINISHED")) eqn:E1;
    [apply bool_decide_eq_true_1 in E1; subst str; reflexivity|].
  destruct (bool_decide (str = "REPORT")) eqn:E2;
    [apply bool_decide_eq_true_1 in E2; subst str; reflexivity|].
  apply bool_decide_eq_false_1 in E1, E2.
  rewrite bool_decide_eq_false_2; [reflexivity|].
  intros Hin. apply elem_of_cons in Hin as [-> | Hin]; [congruence|].
  apply elem_of_cons in Hin as [-> | Hin]; [congruence|].
  now apply elem_of_nil in Hin.
Qed.

(** *** The verdict of the post-check *)

Lemma custom_step_accepts_iff e s :
  (exists reason s', custom_step e s = (Ok (true, reason), s')) <-> custom_accepts e.
Proof.
  unfold custom_step, custom_accepts. split.
  - intros (reason & s' & H).
    destruct (filter_event e) as [[|]|exc] eqn:E; [now left | discriminate |].
    destruct (is_Exception exc) eqn:Ex; [|discriminate].
    right. now exists exc.
  - intros [-> | (exc & -> & ->)]; eexists _, _; reflexivity.
Qed.

Lemma custom_step_raises e s x s' :
  custom_step e s = (Raise x, s') ->
  filter_event e = Raise x /\ is_Exception x = false.
Proof.
  unfold custom_step.
  destruct (filter_event e) as [[|]|exc]; [discriminate | discriminate |].
  destruct (is_Exception exc) eqn:Ex; [discriminate|].
  intros H. inversion H; subst. now split.
Qed.

(** X3.  The post-check accepts an event exactly when the event passes
    the scope checks ([in_scope_only] allows no distance above 0; a
    modifier allows the distances from 0 to [max_scope_distance]) and the
    custom predicate lets it through. *)
Theorem postcheck_accepts_iff (e : Event) (s : State) :
  (exists reason s', _event_postcheck scan (Ev e) s = (Ok (true, reason), s'))
  <-> passes_scope_checks scan e /\ custom_accepts e.
Proof.
  rewrite postcheck_event, <- (custom_step_accepts_iff e s).
  unfold passes_scope_checks. split.
  - intros (reason & s' & H).
    destruct in_scope_only.
    + cbn [andb] in H. destruct (scope_distance e >? 0) eqn:E0; [discriminate|].
      destruct scope_distance_modifier as [k|].
      * destruct (scope_distance e <? 0) eqn:E1; [discriminate|].
        destruct (scope_distance e >? scope_cap scan k) eqn:E2; [discriminate|].
        split; [|eauto]. split; [lia|]. intros k' [= <-]. lia.
      * split; [|eauto]. split; [lia|]. intros k' [=].
    + cbn [andb] in H. destruct scope_distance_modifier as [k|].
      * destruct (scope_distance e <? 0) eqn:E1; [discriminate|].
        destruct (scope_distance e >? scope_cap scan k) eqn:E2; [discriminate|].
        split; [|eauto]. split; [discriminate|]. intros k' [= <-]. lia.
      * split; [|eauto]. split; [discriminate|]. intros k' [=].
  - intros [[Hin Hcap] Hc].
    assert (E0 : in_scope_only && (scope_distance e >? 0) = false).
    { destruct in_scope_only; [|reflexivity]. specialize (Hin eq_refl).
      cbn [andb]. destruct (scope_distance e >? 0) eqn:E; [lia | reflexivity]. }
    rewrite E0. destruct scope_distance_modifier as [k|]; [|exact Hc].
    specialize (Hcap k eq_refl).
    destruct (scope_distance e <? 0) eqn:E1; [lia|].
    destruct (scope_distance e >? scope_cap scan k) eqn:E2; [lia | exact Hc].
Qed.

(** X4.  For a module whose [scope_distance_modifier] is a number [k],
    not [None]: when [max_scope_distance] is 0 (under [in_scope_only] or
    [target_only], or when search distance plus [k] is not above 0, as
    with the default modifier -1 and the default search distance 1),
    the post-check accepts exactly the events at scope distance 0 that
    the custom predicate lets through. *)
Theorem postcheck_in_scope_equivalence (e : Event) (s : State) (k : Z) :
  scope_distance_modifier = Some k ->
  in_scope_only = true \/ target_only = true \/ scope_search_distance scan + k <= 0 ->
  (exists reason s', _event_postcheck scan (Ev e) s = (Ok (true, reason), s'))
  <-> scope_distance e = 0 /\ custom_accepts e.
Proof.
  intros Hk Hzero.
  assert (Hcap : scope_cap scan k = 0).
  { unfold scope_cap. destruct Hzero as [-> | [-> | H]];
      [reflexivity | now rewrite orb_true_r |].
    destruct (in_scope_only || target_only); [reflexivity | lia]. }
  rewrite postcheck_event, Hk, Hcap, <- (custom_step_accepts_iff e s). split.
  - intros (reason & s' & H).
    destruct (in_scope_only && _); [discriminate|].
    destruct (scope_distance e <? 0) eqn:E1; [discriminate|].
    destruct (scope_distance e >? 0) eqn:E2; [discriminate|].
    split; [lia | eauto].
  - intros [Hd Hc]. rewrite Hd. cbn. now rewrite andb_false_r.
Qed.

(** X5.  [max_scope_distance] raises a TypeError when the modifier is
    [None] and neither [in_scope_only] nor [target_only] is set, but the
    filter never reads it then: the only exception that leaves
    [_filter_event] is one that [filter_event] raised on an event the
    pre-check accepted, and that is no [Exception]. *)
Theorem filter_raises_only_from_predicate (event : Item) (precheck_only : bool)
    (s : State) :
  (scope_distance_modifier = None -> in_scope_only || target_only = false ->
   exists x, max_scope_distance scan s = (Raise x, s)
             /\ exc_class x = OtherException "TypeError")
  /\ forall x s', _filter_event scan event precheck_only s = (Raise x, s') ->
       precheck_only = false
       /\ exists e, event = Ev e
          /\ (_event_precheck (Ev e) s).1 = Ok (true, "")
          /\ filter_event e = Raise x
          /\ is_Exception x = false.
Proof.
  split.
  - intros Hnone Hflags. unfold max_scope_distance. rewrite Hnone, Hflags.
    eexists. split; reflexivity.
  - intros x s' H. destruct event as [str|e].
    + rewrite filter_event_str in H. unfold _event_precheck in H. unfold_M.
      destruct (bool_decide _); discriminate.
    + rewrite filter_event_ev in H.
      destruct (precheck_event_cases e s) as (acc & reason & Hpre & _ & Hacc).
      rewrite Hpre in H. destruct acc; [|discriminate].
      destruct precheck_only; [discriminate|]. split; [reflexivity|].
      exists e. split; [reflexivity|]. split; [now rewrite Hpre, Hacc|].
      rewrite postcheck_event in H.
      repeat match type of H with
             | context [if ?b then _ else _] => destruct b
             | context [match scope_distance_modifier with _ => _ end] =>
                 destruct scope_distance_modifier
             end;
        try discriminate; now apply custom_step_raises in H.
Qed.

(** *** [_handle_batch] *)

Lemma bind_run {A B} (m : M A) (k : A -> M B) s :
  (m ≫= k) s = match m s with
               | (Ok a, s') => k a s'
               | (Raise e, s') => (Raise e, s')
               end.
Proof. reflexivity. Qed.

Lemma event_queue_run s :
  event_queue s = (Ok (_event_queue (with_event_queue s)), with_event_queue s).
Proof.
  unfold event_queue, with_event_queue. unfold_M.
  destruct (_event_queue s) eqn:E; cbn; now rewrite ?E.
Qed.

Lemma queue_items_with_event_queue s :
  queue_items (_event_queue (with_event_queue s)) = queue_items (_event_queue s).
Proof. unfold with_event_queue. now destruct (_event_queue s) eqn:E; cbn; rewrite ?E. Qed.

Lemma with_event_queue_twice s :
  with_event_queue (with_event_queue s) = with_event_queue s.
Proof. unfold with_event_queue. now destruct (_event_queue s) eqn:E; cbn; rewrite ?E. Qed.

Lemma num_queued_events_run s :
  num_queued_events s
  = (Ok (Z.of_nat (length (queue_items (_event_queue s)))), with_event_queue s).
Proof.
  unfold num_queued_events. rewrite bind_run, event_queue_run.
  rewrite <- queue_items_with_event_queue.
  destruct (_event_queue (with_event_queue s)); reflexivity.
Qed.

(** Nothing queued, or too little without [force]: nothing happens. *)
Lemma handle_batch_idle force s :
  length (queue_items (_event_queue s)) = 0%nat
  \/ (force = false /\ Z.of_nat (length (queue_items (_event_queue s))) < batch_size) ->
  _handle_batch force s = (Ok false, with_event_queue s).
Proof.
  intros H. unfold _handle_batch.
  rewrite bind_run, num_queued_events_run.
  set (n := Z.of_nat (length (queue_items (_event_queue s)))).
  rewrite bind_run.
  destruct (n >? 0) eqn:En.
  - destruct H as [H | [-> H]]; [subst n; rewrite H in En; discriminate|].
    rewrite bind_run, num_queued_events_run, with_event_queue_twice,
      queue_items_with_event_queue.
    fold n. unfold_M.
    destruct (n >=? batch_size) eqn:E; [lia | reflexivity].
  - reflexivity.
Qed.

(** Otherwise the batch is drained and, when it holds an event, submitted. *)
Lemma handle_batch_go_drain force s items :
  _event_queue s = Queue items ->
  items <> [] ->
  force = true \/ batch_size <= Z.of_nat (length items) ->
  0 < batch_size ->
  _handle_batch force s
  = let '((events, finish, report), rest) := drain batch_size items [] false false in
    let s1 := set_event_queue (Queue rest) (set_batch_idle 0 s) in
    match events with
    | [] => (Ok false, s1)
    | _ :: _ =>
        (Ok true,
         add_effects
           (batch_submission events
              (if finish : bool then Some m_finish
               else if report : bool then Some m_report else None)) s1)
    end.
Proof.
  intros Hq Hne Hgo Hbs.
  assert (Hw : with_event_queue s = s) by (unfold with_event_queue; now rewrite Hq).
  assert (Hn : (Z.of_nat (length items) >? 0) = true).
  { apply Z.gtb_lt. destruct items; [congruence | cbn [length]; lia]. }
  unfold _handle_batch.
  rewrite bind_run, num_queued_events_run, Hw, Hq. cbn [queue_items].
  rewrite Hn, bind_run.
  assert (Hgo' : (if force then mret true
                  else n' ← num_queued_events; mret (n' >=? batch_size)) s
                 = (Ok true, s)).
  { destruct force; [reflexivity|].
    rewrite bind_run, num_queued_events_run, Hw, Hq. cbn [queue_items].
    destruct Hgo as [? | Hge]; [discriminate|].
    unfold_M. destruct (Z.of_nat (length items) >=? batch_size) eqn:E; [reflexivity | lia]. }
  rewrite Hgo'. clear Hgo'.
  unfold events_waiting, event_queue. unfold_M.
  rewrite (proj2 (Z.gtb_lt _ _) Hbs). cbn beta. cbn [set_batch_idle _event_queue].
  rewrite Hq.
  destruct (drain batch_size items [] false false) as [[[events finish] report] rest].
  destruct events as [|e0 evs]; [reflexivity|].
  unfold batch_submission.
  rewrite !add_effect_effects, add_effects_app. reflexivity.
Qed.

Lemma handle_batch_go force s items :
  _event_queue s = Queue items ->
  items <> [] ->
  force = true \/ batch_size <= Z.of_nat (length items) ->
  0 < batch_size ->
  exists consumed rest,
    items = consumed ++ rest
    /\ Z.of_nat (length (events_of consumed)) <= batch_size
    /\ (rest = [] \/ Z.of_nat (length (events_of consumed)) = batch_size)
    /\ _handle_batch force s
       = let s1 := set_event_queue (Queue rest) (set_batch_idle 0 s) in
         match events_of consumed with
         | [] => (Ok false, s1)
         | _ :: _ =>
             (Ok true,
              add_effects (batch_submission (events_of consumed) (batch_callback consumed)) s1)
         end.
Proof.
  intros Hq Hne Hgo Hbs.
  destruct (drain_spec items batch_size [] false false) as (c & r & Hitems & Hd & Hlen & Hend);
    [lia|].
  exists c, r. split; [exact Hitems|]. split; [exact Hlen|]. split; [exact Hend|].
  rewrite (handle_batch_go_drain force s items Hq Hne Hgo Hbs), Hd.
  reflexivity.
Qed.
(** With a budget of 0 or less the drain takes nothing; only the idle
    counter is reset. *)
Lemma handle_batch_no_budget force s items :
  _event_queue s = Queue items ->
  items <> [] ->
  force = true \/ batch_size <= Z.of_nat (length items) ->
  batch_size <= 0 ->
  _handle_batch force s = (Ok false, set_batch_idle 0 s).
Proof.
  intros Hq Hne Hgo Hbs.
  assert (Hw : with_event_queue s = s) by (unfold with_event_queue; now rewrite Hq).
  assert (Hn : (Z.of_nat (length items) >? 0) = true).
  { apply Z.gtb_lt. destruct items; [congruence | cbn [length]; lia]. }
  unfold _handle_batch.
  rewrite bind_run, num_queued_events_run, Hw, Hq. cbn [queue_items].
  rewrite Hn, bind_run.
  assert (Hgo' : (if force then mret true
                  else n' ← num_queued_events; mret (n' >=? batch_size)) s
                 = (Ok true, s)).
  { destruct force; [reflexivity|].
    rewrite bind_run, num_queued_events_run, Hw, Hq. cbn [queue_items].
    unfold_M. destruct (Z.of_nat (length items) >=? batch_size) eqn:E; [reflexivity | lia]. }
  rewrite Hgo'. unfold events_waiting. unfold_M.
  destruct (batch_size >? 0) eqn:E; [lia | reflexivity].
Qed.

(** X6.  [_handle_batch] neither loses nor repeats an event: the events
    that were queued are the batch it submits followed by the events it
    leaves on the queue.  It returns [True] exactly when the batch is not
    empty; the batch holds at most [batch_size] events; and it is
    submitted once, as one [handle_batch] task on the internal pool,
    after one debug line. *)
Theorem handle_batch_conserves_events (force : bool) (s : State) :
  exists b batch cb,
    (_handle_batch force s).1 = Ok b
    /\ events_of (queue_items (_event_queue s))
       = batch ++ events_of (queue_items (_event_queue (_handle_batch force s).2))
    /\ (b = true <-> batch <> [])
    /\ Z.of_nat (length batch) <= Z.max 0 batch_size
    /\ effects (_handle_batch force s).2
       = effects s ++ (if b then batch_submission batch cb else []).
Proof.
  assert (Hidle : _handle_batch force s = (Ok false, with_event_queue s) ->
                  exists b batch cb,
                    (_handle_batch force s).1 = Ok b
                    /\ events_of (queue_items (_event_queue s))
                       = batch ++ events_of (queue_items (_event_queue (_handle_batch force s).2))
                    /\ (b = true <-> batch <> [])
                    /\ Z.of_nat (length batch) <= Z.max 0 batch_size
                    /\ effects (_handle_batch force s).2
                       = effects s ++ (if b then batch_submission batch cb else [])).
  { intros ->. exists false, [], None. cbn [fst snd app].
    rewrite queue_items_with_event_queue, app_nil_r.
    split; [reflexivity|]. split; [reflexivity|].
    split; [split; intros; congruence|]. split; [cbn; lia|].
    unfold with_event_queue. now destruct (_event_queue s). }
  destruct (queue_items (_event_queue s)) as [|x items'] eqn:Hitems.
  { apply Hidle, handle_batch_idle. left. now rewrite Hitems. }
  destruct (_event_queue s) as [| |items] eqn:Hq; try discriminate.
  cbn [queue_items] in Hitems. subst items.
  set (items := x :: items') in *.
  destruct (decide (force = true \/ batch_size <= Z.of_nat (length items))) as [Hgo | Hno].
  - destruct (decide (0 < batch_size)) as [Hbs | Hbs].
    + destruct (handle_batch_go force s items Hq) as (c & r & Hsplit & Hlen & _ & ->);
        [discriminate | assumption | assumption |].
      cbn zeta. rewrite Hsplit, events_of_app.
      destruct (events_of c) as [|e0 evs] eqn:Hev.
      * exists false, [], None. cbn. rewrite app_nil_r.
        split; [reflexivity|]. split; [reflexivity|].
        split; [split; intros; congruence|]. split; [lia | reflexivity].
      * exists true, (e0 :: evs), (batch_callback c). cbn [fst snd].
        split; [reflexivity|]. split; [reflexivity|].
        split; [split; intros; congruence|]. split; [lia | reflexivity].
    + rewrite (handle_batch_no_budget force s items Hq) by (discriminate || assumption || lia).
      exists false, [], None.
      cbn [fst snd app _event_queue set_batch_idle effects length]. rewrite Hq, app_nil_r.
      split; [reflexivity|]. split; [reflexivity|].
      split; [split; intros; congruence|]. split; [lia | reflexivity].
  - apply Hidle, handle_batch_idle. right.
    rewrite Hq. cbn [queue_items]. destruct force; [tauto|]. split; [reflexivity|].
    apply Z.nle_gt. tauto.
Qed.

(** X8.  When [_handle_batch] submits a batch, the strings that the drain
    consumed along with it choose the callback that runs after the batch:
    [finish] when "FINISHED" was among them, even if "REPORT" was too;
    [report] when only "REPORT" was; none otherwise. *)
Theorem handle_batch_callback (force : bool) (s s' : State) :
  _handle_batch force s = (Ok true, s') ->
  exists consumed cb,
    queue_items (_event_queue s) = consumed ++ queue_items (_event_queue s')
    /\ effects s' = effects s ++ batch_submission (events_of consumed) cb
    /\ (has_token "FINISHED" consumed = true -> cb = Some m_finish)
    /\ (has_token "FINISHED" consumed = false -> has_token "REPORT" consumed = true ->
        cb = Some m_report)
    /\ (has_token "FINISHED" consumed = false -> has_token "REPORT" consumed = false ->
        cb = None).
Proof.
  intros H.
  destruct (queue_items (_event_queue s)) as [|x items'] eqn:Hitems.
  { rewrite handle_batch_idle in H by (left; now rewrite Hitems). discriminate. }
  destruct (_event_queue s) as [| |items] eqn:Hq; try discriminate.
  cbn [queue_items] in Hitems. subst items.
  set (items := x :: items') in *.
  destruct (decide (force = true \/ batch_size <= Z.of_nat (length items))) as [Hgo | Hno].
  - destruct (decide (0 < batch_size)) as [Hbs | Hbs].
    + destruct (handle_batch_go force s items Hq) as (c & r & Hsplit & _ & _ & Hrun);
        [discriminate | assumption | assumption |].
      rewrite Hrun in H. cbn zeta in H.
      destruct (events_of c) as [|e0 evs] eqn:Hev; [discriminate|].
      injection H as <-. exists c, (batch_callback c). cbn [_event_queue add_effects
        set_event_queue queue_items effects set_batch_idle]. rewrite Hev.
      split; [exact Hsplit|]. split; [reflexivity|].
      unfold batch_callback. repeat split; intros; 
        repeat match goal with H : _ = _ |- _ => rewrite H end; reflexivity.
    + rewrite (handle_batch_no_budget force s items Hq) in H
        by (discriminate || assumption || lia). discriminate.
  - rewrite handle_batch_idle in H; [discriminate|]. right.
    rewrite Hq. cbn [queue_items]. destruct force; [tauto|]. split; [reflexivity|].
    apply Z.nle_gt. tauto.
Qed.

Lemma drain_events evs : forall left acc finish report,
  0 <= left ->
  drain left (map Ev evs) acc finish report
  = ((acc ++ take (Z.to_nat left) evs, finish, report),
     map Ev (drop (Z.to_nat left) evs)).
Proof.
  induction evs as [|e evs IH]; intros left acc finish report Hl.
  - cbn [map drain]. rewrite take_nil, drop_nil, app_nil_r.
    now destruct (left >? 0).
  - cbn [map drain]. destruct (left >? 0) eqn:E.
    + rewrite IH by lia.
      replace (Z.to_nat left) with (S (Z.to_nat (left - 1))) by lia.
      cbn [take drop]. now rewrite <- app_assoc.
    + assert (left = 0) as -> by lia. cbn. now rewrite app_nil_r.
Qed.

(** X7.  Without [force], a module whose queue holds only events waits
    for a full batch: below [batch_size] queued events [_handle_batch]
    returns [False] and changes nothing; from [batch_size] on it submits
    exactly the first [batch_size] events, with no callback, leaves the
    others queued in order and resets the idle counter. *)
Theorem handle_batch_waits_for_full_batch (evs : list Event) (s : State) :
  _event_queue s = Queue (map Ev evs) ->
  0 < batch_size ->
  (Z.of_nat (length evs) < batch_size -> _handle_batch false s = (Ok false, s))
  /\ (batch_size <= Z.of_nat (length evs) ->
      _handle_batch false s
      = (Ok true,
         add_effects (batch_submission (take (Z.to_nat batch_size) evs) None)
           (set_event_queue (Queue (map Ev (drop (Z.to_nat batch_size) evs)))
              (set_batch_idle 0 s)))).
Proof.
  intros Hq Hbs. split.
  - intros Hlt. rewrite handle_batch_idle.
    + unfold with_event_queue. now rewrite Hq.
    + right. rewrite Hq. cbn [queue_items]. now rewrite length_map.
  - intros Hge.
    assert (Hne : map Ev evs <> []) by (destruct evs; [cbn in Hge; lia | discriminate]).
    rewrite (handle_batch_go_drain false s (map Ev evs) Hq Hne)
      by (assumption || (right; now rewrite length_map)).
    rewrite drain_events by lia. cbn [app].
    destruct (take (Z.to_nat batch_size) evs) as [|e0 rest] eqn:Ht; [|reflexivity].
    apply (f_equal length) in Ht. rewrite length_take in Ht. cbn in Ht. lia.
Qed.

(** *** The worker, one event at a time *)

Lemma set_event_queue_add_effects q l s :
  set_event_queue q (add_effects l s) = add_effects l (set_event_queue q s).
Proof. reflexivity. Qed.

Lemma set_event_queue_again q q' s :
  set_event_queue q' (set_event_queue q s) = set_event_queue q' s.
Proof. reflexivity. Qed.

Lemma worker_single_step x rest s :
  _event_queue s = Queue (x :: rest) ->
  _worker_single s
  = (Ok true, add_effects (dispatched x) (set_event_queue (Queue rest) s)).
Proof.
  intros Hq. unfold _worker_single. rewrite bind_run, event_queue_run.
  unfold with_event_queue. rewrite Hq. rewrite Hq. unfold dispatched. unfold_M.
  destruct x as [str|ev].
  - destruct (bool_decide (str = "FINISHED")); [|destruct (bool_decide (str = "REPORT"))];
      rewrite ?add_effect_effects, ?add_effects_app; reflexivity.
  - destruct (bool_decide (_type = "output"));
      rewrite ?add_effect_effects, ?add_effects_app; reflexivity.
Qed.

Lemma worker_single_empty s :
  _event_queue s = Queue [] -> _worker_single s = (Ok true, s).
Proof.
  intros Hq. unfold _worker_single. rewrite bind_run, event_queue_run.
  unfold with_event_queue. rewrite Hq. now rewrite Hq.
Qed.

(** X9.  The single-event worker takes the queue in order.  After [k]
    passes the first [k] items have been dispatched one after the other
    (an event to [handle_event], on the internal pool or, for an output
    module, on the worker's own thread; "FINISHED" to [finish]; "REPORT"
    to [report]) and the others are still queued; passes on an empty
    queue change nothing.  So whatever was queued before a token is
    dispatched before the token's callback is submitted. *)
Theorem worker_single_fifo (k : nat) (items : list Item) (s : State) :
  _event_queue s = Queue items ->
  Nat.iter k (fun s => (_worker_single s).2) s
  = add_effects (flat_map dispatched (take k items))
      (set_event_queue (Queue (drop k items)) s).
Proof.
  revert items s. induction k as [|k IH]; intros items s Hq.
  - rewrite take_0, drop_0. cbn [Nat.iter nat_rect flat_map].
    now rewrite <- Hq, set_event_queue_same, add_effects_nil.
  - rewrite Nat.iter_succ_r. destruct items as [|x rest].
    + rewrite (worker_single_empty s Hq). cbn [snd].
      rewrite (IH [] s Hq). now rewrite take_nil, drop_nil.
    + rewrite (worker_single_step x rest s Hq). cbn [snd].
      rewrite (IH rest) by reflexivity.
      rewrite firstn_cons, skipn_cons. cbn [flat_map].
      rewrite set_event_queue_add_effects, set_event_queue_again, add_effects_app.
      reflexivity.
Qed.

(** *** The worker in batches *)

Lemma set_batch_idle_same s : set_batch_idle (_batch_idle s) s = s.
Proof. now destruct s. Qed.

Lemma set_batch_idle_again a b s :
  set_batch_idle a (set_batch_idle b s) = set_batch_idle a s.
Proof. reflexivity. Qed.

Lemma stalemate_iff v :
  forallb (fun m : Z * bool => negb m.2)
    (List.filter (fun m : Z * bool => m.1 >? 1) (scan_modules v)) = true
  <-> forall m, m ∈ scan_modules v -> 1 < m.1 -> m.2 = false.
Proof.
  rewrite forallb_forall. split.
  - intros H m Hin Hb. apply negb_true_iff, H, filter_In.
    split; [now apply list_elem_of_In | now apply Z.gtb_lt].
  - intros H m Hin. apply filter_In in Hin as [Hin Hb].
    apply negb_true_iff, H; [now apply list_elem_of_In | now apply Z.gtb_lt].
Qed.

Lemma force_batch_run v s :
  _force_batch v s
  = (Ok ((_batch_idle s >=? batch_wait)
         || bool_decide (scan_status v = "FINISHING")
         || forallb (fun m : Z * bool => negb m.2)
              (List.filter (fun m : Z * bool => m.1 >? 1) (scan_modules v))), s).
Proof.
  unfold _force_batch. unfold_M.
  destruct (_batch_idle s >=? batch_wait); [reflexivity|].
  destruct (bool_decide _); [reflexivity|].
  destruct (forallb _ _); reflexivity.
Qed.

Lemma force_batch_busy v s :
  busy v -> _batch_idle s < batch_wait -> _force_batch v s = (Ok false, s).
Proof.
  intros [Hst (m & Hin & Hb & Hr)] Hidle. rewrite force_batch_run.
  replace (_batch_idle s >=? batch_wait) with false by (symmetry; lia).
  rewrite (bool_decide_eq_false_2 _ Hst). cbn [orb].
  destruct (forallb _ _) eqn:E; [|reflexivity].
  pose proof (proj1 (stalemate_iff v) E m Hin Hb) as E'. congruence.
Qed.

Lemma force_batch_flushing v s : flushing v -> _force_batch v s = (Ok true, s).
Proof.
  intros [Hst | Hst]; rewrite force_batch_run.
  - rewrite (bool_decide_eq_true_2 _ Hst). now rewrite orb_true_r.
  - rewrite (proj2 (stalemate_iff v) Hst). now rewrite orb_true_r.
Qed.

(** The counter after the increment of a pass: one tenth of the passes. *)
Lemma idle_tick i :
  0 <= i ->
  (if (i + 1) mod 10 =? 0 then i / 10 + 1 else i / 10) = (i + 1) / 10.
Proof.
  intros Hi. destruct ((i + 1) mod 10 =? 0) eqn:E.
  - apply Z.eqb_eq in E. Z.div_mod_to_equations. lia.
  - apply Z.eqb_neq in E. Z.div_mod_to_equations. lia.
Qed.

Lemma worker_batch_tick i v s :
  _worker_batch i v s
  = (force ← _force_batch v;
     (if force : bool then modify (set_batch_idle 0) else mret tt);;
     submitted ← _handle_batch force;
     mret submitted)
      (set_batch_idle (if i mod 10 =? 0 then _batch_idle s + 1 else _batch_idle s) s).
Proof.
  unfold _worker_batch. unfold_M.
  destruct (i mod 10 =? 0); [reflexivity|]. now rewrite set_batch_idle_same.
Qed.

(** While the scan is busy and the counter is below [batch_wait], a pass
    over a queue shorter than the batch only counts. *)
Lemma worker_batch_waits i v s items :
  0 <= i ->
  _event_queue s = Queue items ->
  Z.of_nat (length items) < batch_size ->
  _batch_idle s = i / 10 ->
  (i + 1) / 10 < batch_wait ->
  busy v ->
  _worker_batch (i + 1) v s = (Ok false, set_batch_idle ((i + 1) / 10) s).
Proof.
  intros Hi Hq Hlen Hidle Hwait Hbusy.
  rewrite worker_batch_tick, Hidle, idle_tick by assumption.
  set (s1 := set_batch_idle ((i + 1) / 10) s).
  rewrite bind_run, (force_batch_busy v s1 Hbusy) by exact Hwait.
  unfold_M. rewrite handle_batch_idle.
  - unfold with_event_queue. subst s1. cbn [_event_queue set_batch_idle]. now rewrite Hq.
  - right. split; [reflexivity|]. subst s1. cbn [_event_queue set_batch_idle].
    now rewrite Hq.
Qed.

Lemma worker_batch_passes_wait views : forall i s items,
  0 <= i ->
  _event_queue s = Queue items ->
  Z.of_nat (length items) < batch_size ->
  _batch_idle s = i / 10 ->
  (i + Z.of_nat (length views)) / 10 < batch_wait ->
  Forall busy views ->
  worker_batch_passes i views s
  = set_batch_idle ((i + Z.of_nat (length views)) / 10) s.
Proof.
  induction views as [|v views IH]; intros i s items Hi Hq Hlen Hidle Hwait Hbusy.
  - cbn [worker_batch_passes length]. rewrite Z.add_0_r, <- Hidle.
    now rewrite set_batch_idle_same.
  - apply Forall_cons in Hbusy as [Hv Hbusy].
    cbn [worker_batch_passes length] in *.
    assert (Hstep : (i + 1) / 10 < batch_wait).
    { eapply Z.le_lt_trans; [|exact Hwait]. apply Z.div_le_mono; lia. }
    rewrite (worker_batch_waits i v s items) by assumption. cbn [snd].
    rewrite (IH (i + 1) _ items); try assumption; try lia; try reflexivity.
    + rewrite set_batch_idle_again. f_equal. f_equal. lia.
    + replace (i + 1 + Z.of_nat (length views)) with (i + Z.of_nat (S (length views))) by lia.
      exact Hwait.
Qed.

Lemma events_of_length items : (length (events_of items) <= length items)%nat.
Proof.
  unfold events_of.
  induction items as [|[str|e] items IH]; cbn [omap list_omap length] in *; lia.
Qed.

(** A forced pass over a queue that holds an event submits the first
    [batch_size] events of the queue. *)
Lemma handle_batch_forced items s :
  _event_queue s = Queue items ->
  events_of items <> [] ->
  0 < batch_size ->
  exists consumed rest,
    items = consumed ++ rest
    /\ (rest = [] \/ Z.of_nat (length (events_of consumed)) = batch_size)
    /\ events_of consumed = take (Z.to_nat batch_size) (events_of items)
    /\ _handle_batch true s
       = (Ok true,
          add_effects (batch_submission (events_of consumed) (batch_callback consumed))
            (set_event_queue (Queue rest) (set_batch_idle 0 s))).
Proof.
  intros Hq Hev Hbs.
  assert (Hne : items <> []) by (intros ->; now apply Hev).
  destruct (handle_batch_go true s items Hq Hne) as (c & r & Hsplit & Hlen & Hend & Hrun);
    [now left | assumption |].
  exists c, r. split; [exact Hsplit|]. split; [exact Hend|].
  assert (Htake : events_of c = take (Z.to_nat batch_size) (events_of items)).
  { rewrite Hsplit. now apply take_events_of. }
  split; [exact Htake|].
  rewrite Hrun. cbn zeta.
  destruct (events_of c) as [|e0 evs] eqn:Hc; [|reflexivity].
  exfalso. destruct Hend as [-> | Hend]; [|cbn in Hend; lia].
  rewrite app_nil_r in Hsplit. subst c. now apply Hev.
Qed.

(** X10.  A batch that stays short is flushed by the idle counter.  From
    a fresh counter, with fewer items queued than [batch_size] and the
    scan busy, the passes 1 to 10 * [batch_wait] - 1 of the worker submit
    nothing and leave the queue alone, the counter standing at
    [batch_wait] - 1 after them; pass 10 * [batch_wait] submits all the
    queued events as one batch, whatever the scan does then, empties the
    queue and resets the counter. *)
Theorem worker_batch_idle_flush (views : list ScanView) (v : ScanView)
    (items : list Item) (s : State) :
  _event_queue s = Queue items ->
  events_of items <> [] ->
  Z.of_nat (length items) < batch_size ->
  _batch_idle s = 0 ->
  1 <= batch_wait ->
  Z.of_nat (length views) = 10 * batch_wait - 1 ->
  Forall busy views ->
  worker_batch_passes 0 views s = set_batch_idle (batch_wait - 1) s
  /\ _worker_batch (10 * batch_wait) v (worker_batch_passes 0 views s)
     = (Ok true,
        add_effects (batch_submission (events_of items) (batch_callback items))
          (set_event_queue (Queue []) (set_batch_idle 0 s))).
Proof.
  intros Hq Hev Hlen Hidle Hwait Hviews Hbusy.
  assert (Hdiv : (0 + Z.of_nat (length views)) / 10 = batch_wait - 1).
  { rewrite Hviews. Z.div_mod_to_equations. lia. }
  assert (Hpasses : worker_batch_passes 0 views s = set_batch_idle (batch_wait - 1) s).
  { rewrite (worker_batch_passes_wait views 0 s items);
      [now rewrite Hdiv | lia | assumption | assumption | now rewrite Hidle
      | rewrite Hdiv; lia | assumption]. }
  split; [exact Hpasses|]. rewrite Hpasses.
  rewrite worker_batch_tick.
  replace (10 * batch_wait mod 10 =? 0) with true
    by (symmetry; apply Z.eqb_eq; rewrite Z.mul_comm; now apply Z.mod_mul).
  cbn [_batch_idle set_batch_idle]. rewrite set_batch_idle_again.
  rewrite bind_run, force_batch_run. cbn [_batch_idle set_batch_idle].
  replace (batch_wait - 1 + 1 >=? batch_wait) with true by (symmetry; lia).
  cbn [orb]. unfold_M. cbn [set_batch_idle _event_queue].
  destruct (handle_batch_forced items (set_batch_idle 0 s))
    as (c & r & Hsplit & Hend & _ & Hrun); [assumption | assumption | lia |].
  assert (Hr : r = []).
  { destruct Hend as [Hr | Hfull]; [exact Hr|]. exfalso.
    pose proof (events_of_length c) as Hc.
    rewrite Hsplit, length_app in Hlen. lia. }
  subst r. rewrite app_nil_r in Hsplit. subst c.
  change (set_batch_idle 0 (set_batch_idle (batch_wait - 1 + 1) s))
    with (set_batch_idle 0 s).
  rewrite Hrun. reflexivity.
Qed.

(** X11.  When the scan is finishing or none of its batching modules is
    running, one pass of the worker flushes: if the queue holds an event,
    the pass submits the first [batch_size] events of the queue as a
    batch, whatever the idle counter and however short the queue, and
    resets the counter. *)
Theorem worker_batch_flushes_at_once (i : Z) (v : ScanView) (items : list Item)
    (s : State) :
  flushing v ->
  _event_queue s = Queue items ->
  events_of items <> [] ->
  0 < batch_size ->
  exists consumed rest,
    items = consumed ++ rest
    /\ events_of consumed = take (Z.to_nat batch_size) (events_of items)
    /\ _worker_batch i v s
       = (Ok true,
          add_effects (batch_submission (events_of consumed) (batch_callback consumed))
            (set_event_queue (Queue rest) (set_batch_idle 0 s))).
Proof.
  intros Hflush Hq Hev Hbs.
  destruct (handle_batch_forced items (set_batch_idle 0 s))
    as (c & r & Hsplit & _ & Htake & Hrun); [assumption | assumption | assumption |].
  exists c, r. split; [exact Hsplit|]. split; [exact Htake|].
  rewrite worker_batch_tick, bind_run, force_batch_flushing by exact Hflush.
  unfold_M. rewrite set_batch_idle_again, Hrun. reflexivity.
Qed.

(** *** [make_event] and [emit_event] on any outcome *)

Lemma make_event_raise raise_error x s :
  make_event raise_error (Raise x) s
  = if is_ValidationError x && negb raise_error then
      (Ok None, add_effects [MakeEvent; Log WARNING (exc_str x)] s)
    else (Raise x, add_effects [MakeEvent] s).
Proof.
  unfold make_event. unfold_M.
  destruct (is_ValidationError x), raise_error; cbn [andb negb];
    rewrite ?add_effect_effects, ?add_effects_app; reflexivity.
Qed.

(** X12.  When [scan.make_event] fails, [emit_event] ends without asking
    for a permit and without calling the manager.  A ValidationError is
    logged as a warning and [emit_event] returns; with [raise_error] it
    reaches the caller instead, and so does any other exception. *)
Theorem emit_event_make_event_fails (w : World) (kw : EmitKwargs) (x : Exc) (s : State) :
  stopping w = false ->
  made w = Raise x ->
  (is_ValidationError x = true ->
   emit_event w kw false s
   = (Ok (Some tt), add_effects [MakeEvent; Log WARNING (exc_str x)] s)
   /\ emit_event w kw true s = (Raise x, add_effects [MakeEvent] s))
  /\ (is_ValidationError x = false ->
      forall raise_error,
        emit_event w kw raise_error s = (Raise x, add_effects [MakeEvent] s)).
Proof.
  intros Hstop Hmade. unfold emit_event. rewrite Hstop, Hmade.
  split.
  - intros Hv. rewrite !bind_run, !make_event_raise, Hv. now split.
  - intros Hv raise_error. now rewrite bind_run, make_event_raise, Hv.
Qed.

Lemma permits_held_cons x t :
  permits_held (x :: t) = permits_held [x] + permits_held t.
Proof. apply (permits_held_app [x] t). Qed.

(** What the loop adds to the trace, whatever it is told. *)
Lemma emit_loop_trace e kw em polls : forall s,
  exists new,
    (emit_loop e kw em polls s).2 = add_effects new s
    /\ (manager_calls new <= 1)%nat
    /\ permits_held new
       = (if (manager_calls new =? 1)%nat && negb (caught em) then 1 else 0).
Proof.
  induction polls as [|[|okay] polls IH]; intros s.
  - exists []. rewrite add_effects_nil. cbn. split; [reflexivity|]. split; [lia | reflexivity].
  - exists []. rewrite add_effects_nil. cbn. split; [reflexivity|]. split; [lia | reflexivity].
  - cbn [emit_loop]. destruct okay; cbn [negb].
    + unfold_M. destruct em as [[]|x]; [|destruct (is_Exception x) eqn:Ex].
      * exists [AcquireSemaphore e true; ManagerEmit e kw]. cbn.
        split; [now rewrite !add_effect_effects, add_effects_app|]. split; [lia | reflexivity].
      * exists [AcquireSemaphore e true; ManagerEmit e kw; ReleaseSemaphore e;
                Log ERROR ("Unexpected error in " +:+ name +:+ ".emit_event()");
                Log DEBUG (exc_traceback x)].
        cbn. rewrite Ex.
        split; [now rewrite !add_effect_effects, !add_effects_app|]. split; [lia | reflexivity].
      * exists [AcquireSemaphore e true; ManagerEmit e kw]. cbn. rewrite Ex.
        split; [now rewrite !add_effect_effects, add_effects_app|]. split; [lia | reflexivity].
    + rewrite bind_run. unfold_M.
      destruct (IH (add_effect (AcquireSemaphore e false) s)) as (new & Hst & Hcalls & Hheld).
      exists (AcquireSemaphore e false :: new).
      split; [|split].
      * rewrite Hst, add_effect_effects, add_effects_app. reflexivity.
      * exact Hcalls.
      * rewrite permits_held_cons. cbn [permits_held]. 
        change (manager_calls (AcquireSemaphore e false :: new)) with (manager_calls new).
        lia.
Qed.

(** X13.  Whatever the scan, the factory, the semaphore and the manager
    answer, [emit_event] calls the manager at most once, and when it is
    over it holds one permit more than before exactly if it called the
    manager and that call did not raise an [Exception]; otherwise it
    holds none: every other permit it took it has given back. *)
Theorem emit_event_permit_balance (w : World) (kw : EmitKwargs) (raise_error : bool)
    (s : State) :
  exists new,
    effects (emit_event w kw raise_error s).2 = effects s ++ new
    /\ (manager_calls new <= 1)%nat
    /\ permits_held new
       = (if (manager_calls new =? 1)%nat && negb (caught (emitted w)) then 1 else 0).
Proof.
  unfold emit_event. destruct (stopping w).
  { exists []. cbn. rewrite app_nil_r. split; [reflexivity|]. split; [lia | reflexivity]. }
  rewrite bind_run. destruct (made w) as [e|x].
  - rewrite make_event_ok.
    destruct (emit_loop_trace (claimed e) kw (emitted w) (polls w) (add_effect MakeEvent s))
      as (new & Hst & Hcalls & Hheld).
    exists (MakeEvent :: new). rewrite Hst. cbn [effects add_effects add_effect].
    split; [now rewrite <- app_assoc|]. split; [exact Hcalls|].
    rewrite permits_held_cons. cbn [permits_held].
    change (manager_calls (MakeEvent :: new)) with (manager_calls new). lia.
  - rewrite make_event_raise.
    destruct (is_ValidationError x && negb raise_error).
    + exists [MakeEvent; Log WARNING (exc_str x)]. cbn. split; [reflexivity|]. split; [lia | reflexivity].
    + exists [MakeEvent]. cbn. split; [reflexivity|]. split; [lia | reflexivity].
Qed.

(** *** [_setup] on any outcome of [setup] *)

Lemma set_error_state_sets_errored message s :
  errored (set_error_state message s).2 = true.
Proof.
  destruct (errored s) eqn:He.
  - rewrite set_error_state_errored by assumption. now destruct message.
  - now destruct (set_error_state_fresh message s He) as [log ->].
Qed.

(** X14.  When the user [setup()] returns, [_setup] hands its status on,
    with the message of the pair or, for a bare status, "success",
    "hard-fail" or "soft-fail", and changes nothing but the log: a
    [False] that is returned does not put the module in the error state.
    The module is errored after [_setup] exactly if it was before or
    [setup()] raised an [Exception]; an exception that is no [Exception]
    leaves [_setup] as it came. *)
Theorem setup_outcomes (s : State) :
  let started := Log DEBUG ("Setting up module " +:+ name) in
  let finished := Log DEBUG ("Finished setting up module " +:+ name) in
  (forall status, setup = Ok (Plain status) ->
     _setup s
     = (Ok (status, match status with
                    | Some true => "success"
                    | Some false => "hard-fail"
                    | None => "soft-fail"
                    end),
        add_effects [started; finished] s))
  /\ (forall status msg, setup = Ok (Pair status msg) ->
        _setup s = (Ok (status, msg), add_effects [started; finished] s))
  /\ (forall x, setup = Raise x -> is_Exception x = false ->
        _setup s = (Raise x, add_effects [started] s))
  /\ errored (_setup s).2 = errored s || caught setup.
Proof.
  intros started finished. subst started finished.
  split; [|split; [|split]].
  - intros status Hs. unfold _setup. unfold_M. rewrite Hs.
    destruct status as [[|]|]; rewrite !add_effect_effects, add_effects_app; reflexivity.
  - intros status msg Hs. unfold _setup. unfold_M. rewrite Hs.
    rewrite !add_effect_effects, add_effects_app. reflexivity.
  - intros x Hs Hx. unfold _setup. unfold_M. rewrite Hs, Hx.
    now rewrite add_effect_effects.
  - unfold _setup. unfold_M. cbn -[set_error_state].
    destruct setup as [[status|status msg]|x]; cbn -[set_error_state].
    + now rewrite orb_false_r.
    + now rewrite orb_false_r.
    + destruct (is_Exception x); [|cbn; now rewrite orb_false_r].
      match goal with
      | |- context [set_error_state None ?s0] =>
          pose proof (set_error_state_sets_errored None s0) as He;
          destruct (set_error_state None s0) as [[[]|y] s1]
      end; cbn [snd] in He; cbn; rewrite He; now rewrite orb_true_r.
Qed.

(** *** [status], [running] and [priority] *)

(** X15.  [status] reports the number of queued items (0 without a queue
    or with a disarmed one), the permits in use, and the errored flag as
    they are; [running] is true exactly when one of the two pools has a
    task of this module; reading it only creates a missing queue. *)
Theorem status_snapshot (c : Counters) (s : State) :
  exists st,
    status c s = (Ok st, with_event_queue s)
    /\ running c s = (Ok (status_running st), with_event_queue s)
    /\ incoming st = Z.of_nat (length (queue_items (_event_queue s)))
    /\ outgoing st = _qsize - semaphore_value c
    /\ status_errored st = errored s
    /\ (status_running st = true <-> 0 < main_pool c \/ 0 < internal_pool c).
Proof.
  assert (Hst : exists st,
             status c s = (Ok st, with_event_queue s)
             /\ incoming st = Z.of_nat (length (queue_items (_event_queue s)))
             /\ outgoing st = _qsize - semaphore_value c
             /\ status_errored st = errored s
             /\ tasks st = [("main_pool", main_pool c); ("internal_pool", internal_pool c);
                            ("total", main_pool c + internal_pool c)]
             /\ status_running st = _is_running (tasks st)).
  { unfold status. rewrite bind_run, event_queue_run.
    unfold with_event_queue.
    destruct (_event_queue s) as [| |items] eqn:Hq; cbn [_event_queue set_event_queue];
      rewrite ?Hq; unfold event_queue; unfold_M; cbn; rewrite ?Hq;
      eexists; (split; [reflexivity|]); cbn; now rewrite ?Hq. }
  destruct Hst as (st & Hrun & Hin & Hout & Herr & Htasks & Hrunning).
  exists st. split; [exact Hrun|]. split; [|split; [exact Hin|split; [exact Hout|split; [exact Herr|]]]].
  - unfold running. rewrite bind_run, Hrun. unfold_M. now rewrite Hrunning.
  - rewrite Hrunning, Htasks. cbn [_is_running].
    destruct (main_pool c >? 0) eqn:E1; [split; [lia | reflexivity]|].
    destruct (internal_pool c >? 0) eqn:E2; [split; [lia | reflexivity]|].
    destruct (main_pool c + internal_pool c >? 0) eqn:E3; [lia|].
    split; [discriminate | lia].
Qed.

(** X16.  [priority] always lies between 1 and 5, and it is [_priority]
    itself when that lies between 1 and 5. *)
Theorem priority_clamped :
  1 <= priority <= 5 /\ (1 <= _priority <= 5 -> priority = _priority).
Proof. unfold priority. lia. Qed.

(** *** What no entry point undoes *)

Lemma run_op_errored_stays o s : errored s = true -> errored (run_op scan o s) = true.
Proof.
  intros He. destruct o as [event|message| |force| |];
    try (rewrite run_op_keeps_errored by exact I; exact He); cbn [run_op].
  - apply set_error_state_sets_errored.
  - unfold _setup. unfold_M. cbn -[set_error_state].
    destruct setup as [[status|status msg]|x]; cbn -[set_error_state]; try exact He.
    destruct (is_Exception x); [|exact He].
    match goal with
    | |- context [set_error_state None ?s0] =>
        pose proof (set_error_state_sets_errored None s0) as He';
        destruct (set_error_state None s0) as [[[]|y] s1]
    end; exact He'.
Qed.

Lemma run_op_cleanedup_stays o s :
  _cleanedup s = true -> _cleanedup (run_op scan o s) = true.
Proof.
  intros Hc. destruct o as [event|message| |force| |]; cbn [run_op].
  - now apply (preserves_queue_event scan (fun s' => _cleanedup s' = true)).
  - now apply (preserves_set_error_state (fun s' => _cleanedup s' = true)).
  - now rewrite cleanup_again.
  - now apply (preserves_handle_batch (fun s' => _cleanedup s' = true)).
  - now apply (preserves_worker_single (fun s' => _cleanedup s' = true)).
  - now apply (preserves_setup (fun s' => _cleanedup s' = true)).
Qed.

(** X17.  Across any sequence of entry points ([queue_event],
    [set_error_state], [_cleanup], [_handle_batch], a pass of the
    single-event worker, [_setup]): an errored module stays errored, a
    cleaned-up module stays cleaned up, the list of cleanup callbacks is
    not touched, and the trace of calls only grows. *)
Theorem entry_points_never_undo (ops : list Op) (s : State) :
  (errored s = true -> errored (run_ops scan ops s) = true)
  /\ (_cleanedup s = true -> _cleanedup (run_ops scan ops s) = true)
  /\ cleanup_callbacks (run_ops scan ops s) = cleanup_callbacks s
  /\ exists new, effects (run_ops scan ops s) = effects s ++ new.
Proof.
  revert s. induction ops as [|o ops IH]; intros s.
  { repeat split; try tauto. exists []. cbn. now rewrite app_nil_r. }
  cbn [run_ops fold_left].
  destruct (IH (run_op scan o s)) as (He & Hc & Hcb & new & Hnew).
  split; [|split; [|split]].
  - intros H. now apply He, run_op_errored_stays.
  - intros H. now apply Hc, run_op_cleanedup_stays.
  - etransitivity; [exact Hcb|].
    now apply (preserves_run_op scan (fun s' => cleanup_callbacks s' = cleanup_callbacks s)).
  - assert (Hop : exists l, effects (run_op scan o s) = effects s ++ l).
    { apply (preserves_run_op scan (fun s' => exists l, effects s' = effects s ++ l));
        try (intros; assumption).
      - intros x s' [l Hl]. exists (l ++ [x]). cbn. now rewrite Hl, app_assoc.
      - exists []. now rewrite app_nil_r. }
    destruct Hop as [l Hl]. exists (l ++ new).
    change (fold_left (fun s0 o0 => run_op scan o0 s0) ops (run_op scan o s))
      with (run_ops scan ops (run_op scan o s)).
    now rewrite Hnew, Hl, app_assoc.
Qed.

(** X18.  In every state that the entry points reach from [__init__],
    [get_watched_events] answers with the set of the names in
    [watched_events]: the cached set never goes stale. *)
Theorem watched_events_never_stale (ops : list Op) (x : string) :
  exists w,
    (get_watched_events (run_ops scan ops init)).1 = Ok w
    /\ (x ∈ w <-> x ∈ watched_events).
Proof.
  assert (H : forall s, watched_coherent s -> watched_coherent (run_ops scan ops s)).
  { induction ops as [|o ops IH]; intros s Hs; [exact Hs|].
    cbn [run_ops fold_left]. now apply IH, watched_coherent_run_op. }
  specialize (H init (or_introl eq_refl)).
  rewrite get_watched_events_spec. exists (watched_set (run_ops scan ops init)).
  split; [reflexivity|].
  unfold watched_set. destruct H as [-> | ->]; apply elem_of_list_to_set.
Qed.

(** *** [config] *)

(** X19.  A module without options of its own gets the empty dict and
    the class default of [max_threads]: when [scan.config] has no
    "modules" entry, when that entry does not name the module, and when
    it gives the module [None]. *)
Theorem config_missing (scan_config : gmap string (gmap string (option (gmap string Z)))) :
  scan_config !! "modules" = None
  \/ (exists mods, scan_config !! "modules" = Some mods
        /\ (mods !! name = None \/ mods !! name = Some None)) ->
  config scan_config = ∅ /\ max_workers scan_config = max_threads.
Proof.
  intros H.
  assert (Hc : config scan_config = ∅).
  { unfold config. destruct H as [-> | (mods & -> & [Hm | Hm])]; cbn.
    - now rewrite lookup_empty.
    - now rewrite Hm.
    - now rewrite Hm. }
  split; [exact Hc|]. unfold max_workers. now rewrite Hc, lookup_empty.
Qed.

(** X20.  The options of a module are those stored under its own name:
    an entry written for it sets its [max_workers], and an entry written
    for another module changes nothing for it. *)
Theorem config_insert (scan_config : gmap string (gmap string (option (gmap string Z))))
    (mods : gmap string (option (gmap string Z))) (options : gmap string Z)
    (other : string) (entry : option (gmap string Z)) (v : Z) :
  config (<["modules" := <[name := Some options]> mods]> scan_config) = options
  /\ max_workers (<["modules" := <[name := Some (<["max_threads" := v]> options)]> mods]>
                    scan_config) = v
  /\ (other <> name ->
      config (<["modules" := <[other := entry]> mods]> scan_config)
      = config (<["modules" := mods]> scan_config)).
Proof.
  unfold max_workers, config. rewrite !lookup_insert_eq. cbn.
  split; [now rewrite lookup_insert_eq|]. split.
  - now rewrite !lookup_insert_eq.
  - intros Hne. now rewrite lookup_insert_ne.
Qed.

End MoreProofs.

(** * The theorems at concrete modules and events *)

(** A batch of size 2 drained from a queue of three events with both
    tokens between the first and the second. *)
Lemma events_waiting_drain_witness :
  0 <= @batch_size batch2 /\
  exists events saw_finish saw_report q',
    @events_waiting batch2 mixed_queue
      = (Ok (events, saw_finish, saw_report), set_event_queue q' mixed_queue) /\
    Z.of_nat (length events) <= @batch_size batch2 /\
    saw_finish = true /\ saw_report = true.
Proof.
  assert (H : 0 <= @batch_size batch2) by (cbn; lia).
  split; [exact H|].
  destruct (@events_waiting_drain batch2 mixed_queue H)
    as (ev & f & r & c & rest & q' & Hrun & _ & _ & _ & _ & Hlen & _).
  exists ev, f, r, q'. split; [exact Hrun|]. split; [exact Hlen|].
  vm_compute in Hrun. inversion Hrun. split; reflexivity.
Defined.

(** C1.  A forced [_handle_batch] on a batching module whose queue holds
    only the token "FINISHED" consumes the token, submits nothing to the
    internal pool and returns [False]: [finish] is never scheduled. *)
Theorem handle_batch_drops_isolated_finish :
  let r := @_handle_batch batch2 true (with_queue [Str "FINISHED"]) in
  r.1 = Ok false /\ _event_queue r.2 = Queue [] /\ effects r.2 = [].
Proof. vm_compute. repeat split. Qed.

(** The single-event branch of the worker does schedule [finish] for the
    same queue. *)
Lemma worker_single_schedules_finish :
  effects (@_worker_single batch2 (with_queue [Str "FINISHED"])).2
    = [Log DEBUG "Got FINISHED from FINISHED";
       SubmitInternal {| fn := m_finish; args := [];
                         _on_finish_callback := None; _force := false |}].
Proof. reflexivity. Qed.


(** Three calls of [_cleanup] with two functions and a stray value
    registered. *)
Lemma cleanup_runs_callbacks_once_witness :
  (1 <= 3)%nat /\ _cleanedup with_callbacks = false /\
  effects (Nat.iter 3 (fun s => (_cleanup s).2) with_callbacks)
    = [cleanup_call m_cleanup; cleanup_call (registered 0); cleanup_call (registered 1)].
Proof.
  assert (H1 : (1 <= 3)%nat) by lia.
  assert (H2 : _cleanedup with_callbacks = false) by reflexivity.
  split; [exact H1|]. split; [exact H2|].
  destruct (cleanup_runs_callbacks_once 3 with_callbacks H1 H2) as [-> _].
  reflexivity.
Defined.


(** Settles a decidable closed proposition by evaluating its decision. *)
Ltac by_compute := apply (bool_decide_unpack _); vm_compute; exact I.

(** Distance 1 under modifier 0 and search distance 1; distance 1 under
    [in_scope_only]; distance 7 under the modifier [None]. *)
Lemma postcheck_scope_distance_witness :
  (@_event_postcheck scope0 scan1 (Ev dns1) init = (Ok (true, ""), init)
   /\ 0 <= scope_distance dns1 <= 1)
  /\ (@in_scope_only in_scope = true /\ 0 < scope_distance dns1
      /\ @_event_postcheck in_scope scan1 (Ev dns1) init
         = (Ok (false, "it did not meet in_scope_only filter criteria"), init))
  /\ (@scope_distance_modifier any_distance = None
      /\ @_event_postcheck any_distance scan1 (Ev dns7) init = (Ok (true, ""), init)).
Proof.
  split; [|split].
  - assert (H : @_event_postcheck scope0 scan1 (Ev dns1) init = (Ok (true, ""), init))
      by reflexivity.
    split; [exact H|].
    destruct (@postcheck_scope_distance scope0 scan1 dns1 init) as [Hacc _].
    destruct (Hacc "" init H) as [_ Hcap].
    destruct (Hcap 0 eq_refl) as [_ Hb]. exact Hb.
  - assert (H1 : @in_scope_only in_scope = true) by reflexivity.
    assert (H2 : 0 < scope_distance dns1) by (cbn; lia).
    split; [exact H1|]. split; [exact H2|].
    destruct (@postcheck_scope_distance in_scope scan1 dns1 init) as (_ & Hrej & _).
    exact (Hrej H1 H2).
  - assert (H1 : @scope_distance_modifier any_distance = None) by reflexivity.
    assert (H2 : @in_scope_only any_distance = true -> scope_distance dns7 <= 0)
      by (intros E; discriminate E).
    split; [exact H1|].
    destruct (@postcheck_scope_distance any_distance scan1 dns7 init) as (_ & _ & Hskip).
    rewrite (Hskip H1 H2). reflexivity.
Defined.

(** A stopping scan; a permit at the first poll and a manager that
    returns; a permit at the third poll and a manager that raises. *)
Lemma emit_event_gate_witness :
  (stopping halted_world = true
   /\ @emit_event batch2 halted_world no_kwargs false init = (Ok (Some tt), init))
  /\ (effects (@emit_event batch2 calm_world no_kwargs false init).2
      = [MakeEvent; AcquireSemaphore (@claimed batch2 dns0) true;
         ManagerEmit (@claimed batch2 dns0) no_kwargs]
      /\ permits_held (effects (@emit_event batch2 calm_world no_kwargs false init).2) = 1)
  /\ (is_Exception value_error = true
      /\ permits_held (effects (@emit_event batch2 busy_world no_kwargs false init).2) = 0).
Proof.
  split; [|split].
  - assert (H : stopping halted_world = true) by reflexivity.
    split; [exact H|].
    exact (proj1 (@emit_event_gate batch2 halted_world no_kwargs false init) H).
  - destruct (proj2 (@emit_event_gate batch2 calm_world no_kwargs false init)
                dns0 0%nat [] eq_refl eq_refl eq_refl) as [Hok _].
    destruct (Hok eq_refl) as [-> Hp]. split; [reflexivity | exact Hp].
  - assert (H : is_Exception value_error = true) by reflexivity.
    split; [exact H|].
    destruct (proj2 (@emit_event_gate batch2 busy_world no_kwargs false init)
                dns0 2%nat [] eq_refl eq_refl eq_refl) as [_ Hraise].
    destruct (Hraise value_error eq_refl H) as [-> Hp]. exact Hp.
Defined.

(** The string "FOO"; a URL sent to a module that watches DNS names; an
    address without the "target" tag sent to a [target_only] module. *)
Lemma precheck_strings_types_targets_witness :
  ("FOO" <> "FINISHED" /\ "FOO" <> "REPORT"
   /\ (@_event_precheck batch2 (Str "FOO") init).1
      = Ok (false, "string value " +:+ dquote +:+ "FOO" +:+ dquote +:+ " is invalid"))
  /\ (("*" ∉ @watched_set batch2 init) /\ (type url0 ∉ @watched_set batch2 init)
      /\ (@_event_precheck batch2 (Ev url0) init).1
         = Ok (false, "its type is not in watched_events"))
  /\ (("*" ∈ @watched_set batch2 init \/ type dns0 ∈ @watched_set batch2 init)
      /\ (@_event_precheck batch2 (Ev dns0) init).1
         <> Ok (false, "its type is not in watched_events"))
  /\ (@target_only target_ranges = true /\ ("target" ∉ tags speculated_ip)
      /\ exists reason, reason <> ""
           /\ (@_event_precheck target_ranges (Ev speculated_ip) init).1
              = Ok (false, reason)).
Proof.
  split; [|split; [|split]].
  - assert (H1 : "FOO" <> "FINISHED") by by_compute.
    assert (H2 : "FOO" <> "REPORT") by by_compute.
    split; [exact H1|]. split; [exact H2|].
    destruct (@precheck_strings_types_targets batch2 init url0 "FOO")
      as (_ & _ & Hstr & _).
    rewrite (Hstr H1 H2). reflexivity.
  - assert (H1 : "*" ∉ @watched_set batch2 init) by by_compute.
    assert (H2 : type url0 ∉ @watched_set batch2 init) by by_compute.
    split; [exact H1|]. split; [exact H2|].
    destruct (@precheck_strings_types_targets batch2 init url0 "FOO")
      as (_ & _ & _ & Hty & _).
    exact (Hty H1 H2).
  - assert (H : "*" ∈ @watched_set batch2 init \/ type dns0 ∈ @watched_set batch2 init)
      by (right; by_compute).
    split; [exact H|].
    destruct (@precheck_strings_types_targets batch2 init dns0 "FOO")
      as (_ & _ & _ & _ & Hw & _).
    exact (Hw H).
  - assert (H1 : @target_only target_ranges = true) by reflexivity.
    assert (H2 : "target" ∉ tags speculated_ip) by by_compute.
    split; [exact H1|]. split; [exact H2|].
    destruct (@precheck_strings_types_targets target_ranges init speculated_ip "FOO")
      as (_ & _ & _ & _ & _ & Htag).
    exact (Htag H1 H2).
Defined.

(** The reason given for the string "FOO" is not the text
    "invalid string value". *)
Lemma precheck_invalid_string_counterexample :
  (@_event_precheck batch2 (Str "FOO") init).1 <> Ok (false, "invalid string value").
Proof. vm_compute. intros H. discriminate H. Qed.

(** A speculated address reaches a module that takes ranges and
    addresses. *)
Lemma precheck_speculation_collision_witness :
  @watched_coherent ranges init
  /\ (@_event_precheck ranges (Ev speculated_ip) init).1
     = Ok (false, "module consumes IP ranges directly").
Proof.
  assert (H : @watched_coherent ranges init) by (left; reflexivity).
  split; [exact H|].
  apply (proj2 (@precheck_speculation_collision ranges init speculated_ip H)).
  split; [reflexivity|]. split; [reflexivity|]. split; [reflexivity|].
  split; [by_compute|]. split; [by_compute|]. split; [by_compute|].
  intros E; discriminate E.
Defined.

(** The same address sent to a [target_only] module: the five conditions
    of the collision rule hold, yet the reason is that of the
    [target_only] check, which runs first. *)
Lemma precheck_speculation_collision_counterexample :
  (source_type speculated_ip = "IP_RANGE"
   /\ type speculated_ip = "IP_ADDRESS"
   /\ module speculated_ip = Some "speculate"
   /\ @name target_ranges <> "speculate"
   /\ "IP_RANGE" ∈ @watched_events target_ranges
   /\ "IP_ADDRESS" ∈ @watched_events target_ranges)
  /\ (@_event_precheck target_ranges (Ev speculated_ip) init).1
     = Ok (false, "it did not meet target_only filter criteria")
  /\ (@_event_precheck target_ranges (Ev speculated_ip) init).1
     <> Ok (false, "module consumes IP ranges directly").
Proof.
  split; [|split].
  - split; [reflexivity|]. split; [reflexivity|]. split; [reflexivity|].
    split; [by_compute|]. split; by_compute.
  - vm_compute. reflexivity.
  - vm_compute. intros H. discriminate H.
Qed.

(** The manager is interrupted after the permit was granted: its call
    raises an exception that is no instance of [Exception].
    [emit_event] lets it through; the permit is not released, no error
    is logged, and one permit more is held than before. *)
Lemma emit_event_gate_counterexample :
  stopping interrupted_world = false
  /\ emitted interrupted_world = Raise keyboard_interrupt
  /\ is_Exception keyboard_interrupt = false
  /\ (@emit_event batch2 interrupted_world no_kwargs false init).1
     = Raise keyboard_interrupt
  /\ effects (@emit_event batch2 interrupted_world no_kwargs false init).2
     = [MakeEvent; AcquireSemaphore (@claimed batch2 dns0) true;
        ManagerEmit (@claimed batch2 dns0) no_kwargs]
  /\ permits_held (effects (@emit_event batch2 interrupted_world no_kwargs false init).2)
     = permits_held (effects init) + 1.
Proof. repeat split. Qed.

(** The custom predicate is interrupted on an event that passed the
    scope checks: the post-check raises, logs nothing and accepts
    nothing. *)
Lemma postcheck_custom_filter_counterexample :
  passes_scope_checks (cls := interrupted_filter) scan1 dns0
  /\ @filter_event interrupted_filter dns0 = Raise keyboard_interrupt
  /\ is_Exception keyboard_interrupt = false
  /\ @_event_postcheck interrupted_filter scan1 (Ev dns0) init
     = (Raise keyboard_interrupt, init)
  /\ (@_event_postcheck interrupted_filter scan1 (Ev dns0) init).1 <> Ok (true, "").
Proof.
  split; [|split; [|split; [|split]]].
  - split; [intros E; discriminate E|].
    intros k Hk. injection Hk as <-. vm_compute. split; discriminate.
  - reflexivity.
  - reflexivity.
  - vm_compute. reflexivity.
  - vm_compute. intros H. discriminate H.
Qed.


(** A predicate that raises on a URL and refuses a DNS name; a predicate
    that accepts. *)
Lemma postcheck_custom_filter_witness :
  passes_scope_checks (cls := picky) scan1 url0
  /\ passes_scope_checks (cls := picky) scan1 dns0
  /\ passes_scope_checks (cls := scope0) scan1 dns1
  /\ @_event_postcheck picky scan1 (Ev dns0) init
     = (Ok (false, "DNS_NAME(example.com) did not meet custom filter criteria"), init)
  /\ (@_event_postcheck picky scan1 (Ev url0) init).1 = Ok (true, "")
  /\ effects (@_event_postcheck picky scan1 (Ev url0) init).2
     = [Log ERROR "Error in filter_event(URL(http://example.com/)): bad event";
        Log DEBUG "Traceback (most recent call last): ..."]
  /\ @_event_postcheck scope0 scan1 (Ev dns1) init = (Ok (true, ""), init).
Proof.
  assert (H1 : passes_scope_checks (cls := picky) scan1 url0).
  { split; [intros E; discriminate E|].
    intros k Hk. injection Hk as <-. vm_compute. split; discriminate. }
  assert (H2 : passes_scope_checks (cls := picky) scan1 dns0).
  { split; [intros E; discriminate E|].
    intros k Hk. injection Hk as <-. vm_compute. split; discriminate. }
  assert (H3 : passes_scope_checks (cls := scope0) scan1 dns1).
  { split; [intros E; discriminate E|].
    intros k Hk. injection Hk as <-. vm_compute. split; discriminate. }
  split; [exact H1|]. split; [exact H2|]. split; [exact H3|].
  destruct (@postcheck_custom_filter picky scan1 dns0 init H2) as (Hfalse & _).
  destruct (@postcheck_custom_filter picky scan1 url0 init H1) as (_ & Hraise & _).
  destruct (@postcheck_custom_filter scope0 scan1 dns1 init H3) as (_ & _ & Htrue).
  split; [exact (Hfalse eq_refl)|].
  rewrite (Hraise value_error eq_refl eq_refl).
  split; [reflexivity|]. split; [reflexivity|]. exact (Htrue eq_refl).
Defined.

(** ** The scenarios of the specification, run on the embedding *)

(** An event of a type that is not watched is not queued. *)
Example scenario_type_rejection :
  @queue_event batch2 scan1 (Ev url0) init
  = (Ok tt,
     add_effect
       (Log DEBUG "Not accepting URL(http://example.com/) because its type is not in watched_events")
       (set_watched_events (Some (list_to_set ["DNS_NAME"])) (with_queue []))).
Proof. reflexivity. Qed.

(** With modifier 0 and search distance 1, distances 0 and 1 are queued
    and distance 2 is refused. *)
Example scenario_scope_boundary :
  _event_queue (@run_ops scope0 scan1
                  [OpQueueEvent (Ev dns0); OpQueueEvent (Ev dns1); OpQueueEvent (Ev dns2)]
                  init)
    = Queue [Ev dns0; Ev dns1]
  /\ (@_event_postcheck scope0 scan1 (Ev dns2) init).1
     = Ok (false, "its scope_distance (2) exceeds the maximum allowed by the scan (1) + the module (0) == 1").
Proof. split; reflexivity. Qed.

(** Events queued before [set_error_state] are dropped, later ones are
    not taken. *)
Example scenario_error_state_drain :
  let s := @run_ops batch2 scan1
             [OpQueueEvent (Ev dns0); OpQueueEvent (Ev dns0);
              OpSetErrorState (Some "boom"); OpQueueEvent (Ev dns0)] init in
  errored s = true /\ _event_queue s = QFalse
  /\ (@num_queued_events s).1 = Ok 0.
Proof. repeat split. Qed.

(** ** The further properties at concrete modules and events *)

(** An accepted DNS name joins the one already queued. *)
Lemma queue_event_follows_filter_witness :
  errored (with_queue [Ev dns0]) = false
  /\ _event_queue (with_queue [Ev dns0]) <> QFalse
  /\ @queue_event scope0 scan1 (Ev dns1) (with_queue [Ev dns0])
     = (Ok tt,
        set_event_queue (Queue [Ev dns0; Ev dns1])
          (add_effect (EventConsumed (Ev dns1))
             (set_watched_events (Some (list_to_set ["DNS_NAME"])) (with_queue [Ev dns0])))).
Proof.
  assert (H1 : errored (with_queue [Ev dns0]) = false) by reflexivity.
  assert (H2 : _event_queue (with_queue [Ev dns0]) <> QFalse) by discriminate.
  split; [exact H1|]. split; [exact H2|].
  exact (@queue_event_follows_filter scope0 scan1 (Ev dns1) (with_queue [Ev dns0]) H1 H2).
Defined.

(** "REPORT" sent to a module that only takes in-scope events. *)
Lemma queue_event_strings_witness :
  errored mixed_queue = false
  /\ _event_queue mixed_queue <> QFalse
  /\ _event_queue (@queue_event in_scope scan1 (Str "REPORT") mixed_queue).2
     = Queue [Ev dns0; Str "REPORT"; Str "FINISHED"; Ev dns0; Ev dns0; Str "REPORT"].
Proof.
  assert (H1 : errored mixed_queue = false) by reflexivity.
  assert (H2 : _event_queue mixed_queue <> QFalse) by discriminate.
  split; [exact H1|]. split; [exact H2|].
  rewrite (@queue_event_strings in_scope scan1 "REPORT" mixed_queue H1 H2).
  reflexivity.
Defined.

(** The defaults: modifier -1 and search distance 1. *)
Lemma postcheck_in_scope_equivalence_witness :
  @scope_distance_modifier BaseModule = Some (-1)
  /\ scope_search_distance scan1 + -1 <= 0
  /\ exists reason s', @_event_postcheck BaseModule scan1 (Ev dns0) init
                       = (Ok (true, reason), s').
Proof.
  assert (H1 : @scope_distance_modifier BaseModule = Some (-1)) by reflexivity.
  assert (H2 : scope_search_distance scan1 + -1 <= 0) by (cbn; lia).
  split; [exact H1|]. split; [exact H2|].
  apply (proj2 (@postcheck_in_scope_equivalence BaseModule scan1 dns0 init (-1) H1
                  (or_intror (or_intror H2)))).
  split; [reflexivity | left; reflexivity].
Defined.

(** Three events queued with a batch size of 2. *)
Lemma handle_batch_waits_for_full_batch_witness :
  _event_queue (with_queue [Ev dns0; Ev dns1; Ev dns2]) = Queue (map Ev [dns0; dns1; dns2])
  /\ 0 < @batch_size batch2
  /\ @_handle_batch batch2 false (with_queue [Ev dns0; Ev dns1; Ev dns2])
     = (Ok true,
        add_effects (batch_submission [dns0; dns1] None) (with_queue [Ev dns2])).
Proof.
  assert (H1 : _event_queue (with_queue [Ev dns0; Ev dns1; Ev dns2])
               = Queue (map Ev [dns0; dns1; dns2])) by reflexivity.
  assert (H2 : 0 < @batch_size batch2) by (cbn; lia).
  split; [exact H1|]. split; [exact H2|].
  destruct (@handle_batch_waits_for_full_batch batch2 [dns0; dns1; dns2] _ H1 H2)
    as [_ Hfull].
  rewrite Hfull by (cbn; lia). reflexivity.
Defined.

(** A forced batch that takes both tokens along with two events. *)
Lemma handle_batch_callback_witness :
  @_handle_batch batch2 true mixed_queue
  = (Ok true, (@_handle_batch batch2 true mixed_queue).2)
  /\ exists consumed cb,
       queue_items (_event_queue mixed_queue)
       = consumed ++ queue_items (_event_queue (@_handle_batch batch2 true mixed_queue).2)
       /\ (has_token "FINISHED" consumed = true -> cb = Some m_finish).
Proof.
  assert (H : @_handle_batch batch2 true mixed_queue
              = (Ok true, (@_handle_batch batch2 true mixed_queue).2)) by reflexivity.
  split; [exact H|].
  destruct (@handle_batch_callback batch2 true mixed_queue _ H)
    as (consumed & cb & Hsplit & _ & Hfinish & _).
  exists consumed, cb. split; [exact Hsplit | exact Hfinish].
Defined.

(** Two passes over an event, a token and another event. *)
Lemma worker_single_fifo_witness :
  _event_queue (with_queue [Ev dns0; Str "FINISHED"; Ev dns1])
  = Queue [Ev dns0; Str "FINISHED"; Ev dns1]
  /\ Nat.iter 2 (fun s => (@_worker_single batch2 s).2)
       (with_queue [Ev dns0; Str "FINISHED"; Ev dns1])
     = add_effects (@dispatched batch2 (Ev dns0) ++ @dispatched batch2 (Str "FINISHED"))
         (with_queue [Ev dns1]).
Proof.
  assert (H : _event_queue (with_queue [Ev dns0; Str "FINISHED"; Ev dns1])
              = Queue [Ev dns0; Str "FINISHED"; Ev dns1]) by reflexivity.
  split; [exact H|].
  rewrite (@worker_single_fifo batch2 2 _ _ H). reflexivity.
Defined.

(** One event queued with a batch size of 2 and the default wait of 10:
    ninety-nine passes wait, the hundredth flushes. *)
Lemma worker_batch_idle_flush_witness :
  (events_of [Ev dns0] <> []
   /\ Z.of_nat (length [Ev dns0]) < @batch_size batch2
   /\ 1 <= @batch_wait BaseLimits
   /\ Z.of_nat (length (replicate 99 busy_view)) = 10 * @batch_wait BaseLimits - 1
   /\ Forall busy (replicate 99 busy_view))
  /\ @_worker_batch batch2 BaseLimits 100 busy_view
       (@worker_batch_passes batch2 BaseLimits 0 (replicate 99 busy_view)
          (with_queue [Ev dns0]))
     = (Ok true, add_effects (batch_submission [dns0] None) (with_queue [])).
Proof.
  assert (H1 : events_of [Ev dns0] <> []) by discriminate.
  assert (H2 : Z.of_nat (length [Ev dns0]) < @batch_size batch2) by (cbn; lia).
  assert (H3 : 1 <= @batch_wait BaseLimits) by (cbn; lia).
  assert (H4 : Z.of_nat (length (replicate 99 busy_view)) = 10 * @batch_wait BaseLimits - 1)
    by (rewrite length_replicate; reflexivity).
  assert (H5 : Forall busy (replicate 99 busy_view)).
  { apply Forall_replicate. split; [discriminate|].
    exists (2, true). split; [by_compute|]. split; [cbn; lia | reflexivity]. }
  split; [repeat split; assumption|].
  exact (proj2 (@worker_batch_idle_flush batch2 BaseLimits (replicate 99 busy_view) busy_view
                  [Ev dns0] (with_queue [Ev dns0]) eq_refl H1 H2 eq_refl H3 H4 H5)).
Defined.

(** One event queued while the scan is finishing. *)
Lemma worker_batch_flushes_at_once_witness :
  flushing finishing_view
  /\ events_of [Ev dns0] <> []
  /\ 0 < @batch_size batch2
  /\ exists consumed rest,
       [Ev dns0] = consumed ++ rest
       /\ (@_worker_batch batch2 BaseLimits 1 finishing_view (with_queue [Ev dns0])).1
          = Ok true.
Proof.
  assert (H1 : flushing finishing_view) by (left; reflexivity).
  assert (H2 : events_of [Ev dns0] <> []) by discriminate.
  assert (H3 : 0 < @batch_size batch2) by (cbn; lia).
  split; [exact H1|]. split; [exact H2|]. split; [exact H3|].
  destruct (@worker_batch_flushes_at_once batch2 BaseLimits 1 finishing_view [Ev dns0]
              (with_queue [Ev dns0]) H1 eq_refl H2 H3) as (c & r & Hsplit & _ & Hrun).
  exists c, r. split; [exact Hsplit|]. now rewrite Hrun.
Defined.

(** Data that the factory refuses. *)
Lemma emit_event_make_event_fails_witness :
  stopping invalid_world = false
  /\ made invalid_world = Raise invalid_target
  /\ is_ValidationError invalid_target = true
  /\ @emit_event batch2 invalid_world no_kwargs false init
     = (Ok (Some tt),
        add_effects [MakeEvent; Log WARNING "Unable to autodetect event type"] init).
Proof.
  assert (H1 : stopping invalid_world = false) by reflexivity.
  assert (H2 : made invalid_world = Raise invalid_target) by reflexivity.
  assert (H3 : is_ValidationError invalid_target = true) by reflexivity.
  split; [exact H1|]. split; [exact H2|]. split; [exact H3|].
  destruct (@emit_event_make_event_fails batch2 invalid_world no_kwargs invalid_target init
              H1 H2) as [Hv _].
  exact (proj1 (Hv H3)).
Defined.

(** A scan without a "modules" entry in its config. *)
Lemma config_missing_witness :
  (∅ : gmap string (gmap string (option (gmap string Z)))) !! "modules" = None
  /\ @max_workers BaseModule BaseLimits ∅ = 10.
Proof.
  assert (H : (∅ : gmap string (gmap string (option (gmap string Z)))) !! "modules" = None)
    by apply lookup_empty.
  split; [exact H|].
  exact (proj2 (@config_missing BaseModule BaseLimits ∅ (or_introl H))).
Defined.
